(** * worker.go: map and reduce task execution

    A shallow embedding of [worker.go] of the map_reduce repository and
    the properties of its specification that concern it.

    Conventions of the model.
    - A Go [string] is a byte string: Rocq's [string], whose characters
      are the 256 byte values.
    - A Go [int] is a 64-bit two's complement integer, held in [Z] with
      the wrap-around written out ([wrap_int]); [uint32] is [Z] reduced
      modulo 2^32 ([to_uint32]).
    - A Go [error] is [option goerror], [None] being [nil].
    - A computation that may stop the process returns an [outcome]:
      [Done], a run-time [Panic], or the exit of [log.Fatalf] ([Fatal]).
    - A channel handed to a callee that sends on it and closes it before
      returning is the list of values sent, in order. *)

From Stdlib Require Import ZArith String Ascii DecimalString DecimalZ DecimalPos
  Lia Bool Permutation.
From stdpp Require Import gmap strings list.

Local Open Scope string_scope.
Local Open Scope Z_scope.

(** ** Machine integers *)

Module GoInt.

Definition int_min : Z := - 2 ^ 63.
Definition int_max : Z := 2 ^ 63 - 1.

Definition in_int (z : Z) : bool := (int_min <=? z) && (z <=? int_max).

(** Reduction of a mathematical integer to the value an [int] holds. *)
Definition wrap_int (z : Z) : Z := (z + 2 ^ 63) mod 2 ^ 64 - 2 ^ 63.

(** The conversions [uint32(x)] and [x * y] on [uint32]. *)
Definition to_uint32 (z : Z) : Z := z mod 2 ^ 32.
Definition mul_uint32 (x y : Z) : Z := to_uint32 (x * y).

End GoInt.

Export GoInt.

(** ** Errors and outcomes *)

Inductive goerror : Type :=
| ErrSyntax (fn input : string)     (* strconv.ErrSyntax *)
| ErrRange (fn input : string)      (* strconv.ErrRange *)
| ErrIO (what : string).            (* a failed fetch or store operation *)

Definition error : Type := option goerror.

Inductive outcome (A : Type) : Type :=
| Done (a : A)
| Panic (msg : string)
| Fatal (msg : string).

Arguments Done {A} a.
Arguments Panic {A} msg.
Arguments Fatal {A} msg.

Definition obind {A B} (x : outcome A) (k : A -> outcome B) : outcome B :=
  match x with
  | Done a => k a
  | Panic m => Panic m
  | Fatal m => Fatal m
  end.

Notation "'run' v <- x 'then' k" := (obind x (fun v => k))
  (at level 10, v pattern, x at level 100, k at level 200).

(** ** Bytes of a string *)

Definition byte_of (c : ascii) : Z := Z.of_N (N_of_ascii c).
Definition ascii_of (b : Z) : ascii := ascii_of_N (Z.to_N b).

Fixpoint bytes_of_string (s : string) : list Z :=
  match s with
  | EmptyString => []
  | String c s' => byte_of c :: bytes_of_string s'
  end.

Fixpoint string_of_bytes (l : list Z) : string :=
  match l with
  | [] => EmptyString
  | b :: l' => String (ascii_of b) (string_of_bytes l')
  end.

(** ** strconv *)

Module strconv.

(** [strconv.Itoa]: the decimal representation, with a leading [-]
    for a negative number. *)
Definition Itoa (i : Z) : string := NilZero.string_of_int (Z.to_int i).

Definition digit_of (c : ascii) : option Z :=
  let b := byte_of c in
  if (48 <=? b) && (b <=? 57) then Some (b - 48) else None.

Fixpoint digits (s : string) (acc : Z) : option Z :=
  match s with
  | EmptyString => Some acc
  | String c s' =>
      match digit_of c with
      | Some d => digits s' (acc * 10 + d)
      | None => None
      end
  end.

(** [strconv.Atoi]: an optional sign, then one or more decimal digits;
    a value outside the range of [int] is a range error. *)
Definition Atoi (s : string) : Z * error :=
  match s with
  | EmptyString => (0, Some (ErrSyntax "Atoi" s))
  | String c rest =>
      let neg := Ascii.eqb c "-" in
      let body := if neg || Ascii.eqb c "+" then rest else s in
      match body with
      | EmptyString => (0, Some (ErrSyntax "Atoi" s))
      | _ =>
          match digits body 0 with
          | None => (0, Some (ErrSyntax "Atoi" s))
          | Some n =>
              let v := if neg then - n else n in
              if in_int v then (v, None)
              else ((if neg then int_min else int_max),
                    Some (ErrRange "Atoi" s))
          end
      end
  end.

End strconv.

(** ** hash/fnv *)

Module fnv.

Definition offset32 : Z := 2166136261.
Definition prime32 : Z := 16777619.

(** [Write] of the 32-bit FNV-1 hash: multiply, then xor the byte. *)
Fixpoint Write (hash : Z) (data : list Z) : Z :=
  match data with
  | [] => hash
  | c :: data' => Write (Z.lxor (mul_uint32 hash prime32) c) data'
  end.

(** [h := fnv.New32(); h.Write(data); h.Sum32()] *)
Definition Sum32 (data : list Z) : Z := Write offset32 data.

End fnv.

(** ** unicode/utf8 *)

Module utf8.

Definition RuneError : Z := 65533.   (* U+FFFD *)
Definition MaxRune : Z := 1114111.   (* U+10FFFF *)
Definition RuneSelf : Z := 128.

Definition between (lo hi b : Z) : bool := (lo <=? b) && (b <=? hi).
Definition cont (b : Z) : bool := between 128 191 b.

(** Range accepted for the second byte, by first byte. *)
Definition second_ok (b0 b1 : Z) : bool :=
  if b0 =? 224 then between 160 191 b1
  else if b0 =? 237 then between 128 159 b1
  else if b0 =? 240 then between 144 191 b1
  else if b0 =? 244 then between 128 143 b1
  else cont b1.

Definition rune2 (b0 b1 : Z) : Z :=
  Z.lor (Z.shiftl (Z.land b0 31) 6) (Z.land b1 63).
Definition rune3 (b0 b1 b2 : Z) : Z :=
  Z.lor (Z.lor (Z.shiftl (Z.land b0 15) 12) (Z.shiftl (Z.land b1 63) 6))
        (Z.land b2 63).
Definition rune4 (b0 b1 b2 b3 : Z) : Z :=
  Z.lor (Z.lor (Z.lor (Z.shiftl (Z.land b0 7) 18)
                      (Z.shiftl (Z.land b1 63) 12))
               (Z.shiftl (Z.land b2 63) 6))
        (Z.land b3 63).

(** What [for i, c := range s] yields: each rune with the bytes it was
    decoded from; a byte that starts no valid encoding yields
    [RuneError] of width 1 ([utf8.DecodeRuneInString]). *)
Fixpoint decode (s : list Z) : list (Z * list Z) :=
  match s with
  | [] => []
  | b0 :: t1 =>
      let bad := (RuneError, [b0]) :: decode t1 in
      if b0 <? RuneSelf then (b0, [b0]) :: decode t1
      else
        match t1 with
        | [] => bad
        | b1 :: t2 =>
            if negb (second_ok b0 b1) then bad
            else if between 194 223 b0
            then (rune2 b0 b1, [b0; b1]) :: decode t2
            else
              match t2 with
              | [] => bad
              | b2 :: t3 =>
                  if negb (cont b2) then bad
                  else if between 224 239 b0
                  then (rune3 b0 b1 b2, [b0; b1; b2]) :: decode t3
                  else
                    match t3 with
                    | [] => bad
                    | b3 :: t4 =>
                        if cont b3 && between 240 244 b0
                        then (rune4 b0 b1 b2 b3, [b0; b1; b2; b3])
                               :: decode t4
                        else bad
                    end
              end
        end
  end.

(** [utf8.AppendRune]: a surrogate or a value outside the Unicode
    range is written as [RuneError]. *)
Definition encode3 (r : Z) : list Z :=
  [Z.lor 224 (Z.shiftr r 12);
   Z.lor 128 (Z.land (Z.shiftr r 6) 63);
   Z.lor 128 (Z.land r 63)].

Definition encode (r : Z) : list Z :=
  if between 0 127 r then [r]
  else if between 128 2047 r
  then [Z.lor 192 (Z.shiftr r 6); Z.lor 128 (Z.land r 63)]
  else if (r <? 0) || (MaxRune <? r) || between 55296 57343 r
  then encode3 RuneError
  else if r <=? 65535 then encode3 r
  else [Z.lor 240 (Z.shiftr r 18);
        Z.lor 128 (Z.land (Z.shiftr r 12) 63);
        Z.lor 128 (Z.land (Z.shiftr r 6) 63);
        Z.lor 128 (Z.land r 63)].

Definition runes (s : string) : list Z := (decode (bytes_of_string s)).*1.

Definition string_of_runes (rs : list Z) : string :=
  string_of_bytes (concat (map encode rs)).

End utf8.

(** ** unicode

    The ASCII range is written out; the Unicode tables that decide the
    runes above it are taken as given. *)

Class UnicodeTables : Type := {
  wide_IsSpace : Z -> bool;
  wide_IsLetter : Z -> bool;
  wide_IsDigit : Z -> bool;
  wide_ToLower : Z -> Z;
  (** the case tables map runes to runes *)
  wide_ToLower_rune : forall r, 0 <= r -> 0 <= wide_ToLower r
}.

Module unicode.
Section Tables.
Context `{UnicodeTables}.

Definition MaxASCII : Z := 127.

Definition IsSpace (r : Z) : bool :=
  if utf8.between 0 MaxASCII r
  then utf8.between 9 13 r || (r =? 32)     (* \t \n \v \f \r and space *)
  else wide_IsSpace r.

Definition IsLetter (r : Z) : bool :=
  if utf8.between 0 MaxASCII r
  then utf8.between 65 90 r || utf8.between 97 122 r
  else wide_IsLetter r.

Definition IsDigit (r : Z) : bool :=
  if r <=? MaxASCII then utf8.between 48 57 r else wide_IsDigit r.

Definition ToLower (r : Z) : Z :=
  if r <=? MaxASCII
  then (if utf8.between 65 90 r then r + 32 else r)
  else wide_ToLower r.

End Tables.
End unicode.

(** ** strings *)

Module strings.
Section Tables.
Context `{UnicodeTables}.

(** [strings.Map]: every rune of [s] is replaced by its image, a
    negative image dropping the rune. *)
Definition Map (mapping : Z -> Z) (s : string) : string :=
  string_of_bytes
    (concat (map (fun c => let r := mapping c in
                           if r <? 0 then [] else utf8.encode r)
                 (utf8.runes s))).

(** [strings.Fields], as [FieldsFunc(s, unicode.IsSpace)]: [span] is
    the field being read, if one has started. *)
Fixpoint fields (span : option (list Z)) (s : list (Z * list Z))
  : list (list Z) :=
  match s with
  | [] => match span with Some f => [f] | None => [] end
  | (r, bs) :: s' =>
      if unicode.IsSpace r
      then match span with
           | Some f => f :: fields None s'
           | None => fields None s'
           end
      else match span with
           | Some f => fields (Some (f ++ bs)%list) s'
           | None => fields (Some bs) s'
           end
  end.

Definition Fields (s : string) : list string :=
  map string_of_bytes (fields None (utf8.decode (bytes_of_string s))).

End Tables.
End strings.

(** ** The data model of worker.go *)

Record Pair : Type := mkPair { Key : string; Value : string }.

Module MapTask.
Record t : Type := mk {
  M : Z;                (* total number of map tasks *)
  R : Z;                (* total number of reduce tasks *)
  N : Z;                (* map task number, 0-based *)
  SourceHost : string   (* address of host with map input file *)
}.
End MapTask.

Module ReduceTask.
Record t : Type := mk {
  M : Z;
  R : Z;
  N : Z;                       (* reduce task number, 0-based *)
  SourceHosts : list string    (* addresses of map workers *)
}.
End ReduceTask.

(** The interface [Interface]: a mapper and a reducer.  [Map] and
    [Reduce] send on [output] and close it; the model returns what was
    sent together with the error returned. *)
Record Interface : Type := {
  Map : string -> string -> list Pair * error;
  Reduce : string -> list string -> list Pair * error
}.

(** ** File names *)

Definition mapSourceFile (m : Z) : string :=
  "map_" ++ strconv.Itoa m ++ "_source.db".

Definition mapInputFile (m : Z) : string :=
  "map_" ++ strconv.Itoa m ++ "_input.db".

Definition mapOutputFile (m r : Z) : string :=
  "map_" ++ strconv.Itoa m ++ "_output_" ++ strconv.Itoa r ++ ".db".

Definition reduceInputFile (r : Z) : string :=
  "reduce_" ++ strconv.Itoa r ++ "_input.db".

Definition reduceOutputFile (r : Z) : string :=
  "reduce_" ++ strconv.Itoa r ++ "_output.db".

Definition reducePartialFile (r : Z) : string :=
  "reduce_" ++ strconv.Itoa r ++ "_partial.db".

Definition reduceTempFile (r : Z) : string :=
  "reduce_" ++ strconv.Itoa r ++ "_temp.db".

Definition makeURL (host file : string) : string :=
  "http://" ++ host ++ "/data/" ++ file.

(** ** The word-count client *)

Section Client.
Context `{UnicodeTables}.

(** the function literal handed to [strings.Map] *)
Definition letters_and_digits (r : Z) : Z :=
  if unicode.IsLetter r || unicode.IsDigit r
  then unicode.ToLower r
  else -1.

Fixpoint Map_range (lst : list string) (output : list Pair) : list Pair :=
  match lst with
  | [] => output
  | elt :: lst' =>
      let word := strings.Map letters_and_digits elt in
      if 0 <? Z.of_nat (String.length word)
      then Map_range lst' (output ++ [mkPair word "1"])%list
      else Map_range lst' output
  end.

Definition Client_Map (key value : string) : list Pair * error :=
  let lst := strings.Fields value in
  (Map_range lst [], None).

(** The loop [for v := range values] of [Reduce], from the [count]
    reached so far: the count at the end, or the first error. *)
Fixpoint Reduce_range (values : list string) (count : Z) : Z * error :=
  match values with
  | [] => (count, None)
  | v :: values' =>
      match strconv.Atoi v with
      | (i, None) => Reduce_range values' (wrap_int (count + i))
      | (_, Some err) => (count, Some err)
      end
  end.

Definition Client_Reduce (key : string) (values : list string)
  : list Pair * error :=
  match Reduce_range values 0 with
  | (_, Some err) => ([], Some err)
  | (count, None) => ([mkPair key (strconv.Itoa count)], None)
  end.

Definition Client : Interface :=
  {| Map := Client_Map; Reduce := Client_Reduce |}.

End Client.

(** ** The world outside worker.go

    The local file system, what the file-serving endpoints deliver, the
    lines written by [log.Printf], and a record of the calls made to the
    client. *)

Inductive File : Type :=
| Database (pairs : list Pair)   (* a store with its table of pairs *)
| NotADatabase.                  (* any other file *)

Inductive Call : Type :=
| CallMap (key value : string)
| CallReduce (key : string) (values : list string).

Record World : Type := mkWorld {
  files : gmap string File;
  served : gmap string File;
  logged : list string;
  calls : list Call
}.

Definition set_files (f : gmap string File -> gmap string File) (w : World)
  : World :=
  mkWorld (f (files w)) (served w) (logged w) (calls w).

Definition log_Printf (line : string) (w : World) : World :=
  mkWorld (files w) (served w) (logged w ++ [line])%list (calls w).

Definition record (c : Call) (w : World) : World :=
  mkWorld (files w) (served w) (logged w) (calls w ++ [c])%list.

(** [path/filepath]: [Join] is the library's. *)
Class FilePath : Type := { filepath_Join : string -> string -> string }.

(** A [*sql.DB]: [None] is the nil pointer, [Some path] a handle on the
    store file at [path]. *)
Definition DB : Type := option string.

(** [db.Close()]: a method of a nil [*sql.DB] dereferences it. *)
Definition Close (db : DB) : outcome unit :=
  match db with
  | Some _ => Done tt
  | None => Panic "invalid memory address or nil pointer dereference"
  end.

(** Modelled from the spec: [createDatabase] is not in worker.go; the
    store abstraction's create-empty. *)
Definition createDatabase (path : string) (w : World) : DB * error * World :=
  (Some path, None, set_files (insert path (Database [])) w).

(** Modelled from the spec: [openDatabase] is not in worker.go; the
    store abstraction's open of an existing store, an open failure being
    an I/O error with no handle. *)
Definition openDatabase (path : string) (w : World) : DB * error * World :=
  match files w !! path with
  | Some (Database _) => (Some path, None, w)
  | Some NotADatabase => (None, Some (ErrIO "file is not a database"), w)
  | None => (None, Some (ErrIO "unable to open database file"), w)
  end.

(** Modelled from the spec: the store abstraction's insert, behind
    [db.Exec("INSERT INTO pairs (key, value) VALUES (?, ?)", ...)]. *)
Definition Exec_insert (db : DB) (pair : Pair) (w : World)
  : outcome (error * World) :=
  match db with
  | None => Panic "invalid memory address or nil pointer dereference"
  | Some path =>
      match files w !! path with
      | Some (Database ps) =>
          Done (None, set_files (insert path (Database (ps ++ [pair])%list)) w)
      | _ => Done (Some (ErrIO "no such table: pairs"), w)
      end
  end.

(** Modelled from the spec: the store abstraction's scan of all pairs,
    behind [db.Query("select key, value from pairs")]. *)
Definition Query_pairs (db : DB) (w : World) : outcome (list Pair * error) :=
  match db with
  | None => Panic "invalid memory address or nil pointer dereference"
  | Some path =>
      match files w !! path with
      | Some (Database ps) => Done (ps, None)
      | _ => Done ([], Some (ErrIO "no such table: pairs"))
      end
  end.

(** Modelled from the spec: [download] is not in worker.go; the transfer
    client, which fetches the file served at [url] into the local file
    [path]. *)
Definition download (url path : string) (w : World) : error * World :=
  match served w !! url with
  | Some f => (None, set_files (insert path f) w)
  | None => (Some (ErrIO ("GET " ++ url)), w)
  end.

(** ** getDatabase and InsertPair *)

Section Store.
Context `{FilePath}.

Definition getDatabase (path : string) (w : World) : DB * error * World :=
  match files w !! path with
  | None => createDatabase path w          (* os.IsNotExist(err) *)
  | Some _ => openDatabase path w
  end.

(** [hash.Sum32() % uint32(task.R)], a division by zero being a
    run-time panic; the result converted to [int]. *)
Definition bucket (key : string) (R : Z) : outcome Z :=
  let hash := fnv.Sum32 (bytes_of_string key) in
  let d := to_uint32 R in
  if d =? 0
  then Panic "runtime error: integer divide by zero"
  else Done (hash mod d).

Definition InsertPair (task : MapTask.t) (path : string) (pair : Pair)
           (w : World) : outcome (error * World) :=
  let n := MapTask.N task in
  run r <- bucket (Key pair) (MapTask.R task) then
  let outputDB := mapOutputFile n r in
  let '(db, err, w) := getDatabase (filepath_Join path outputDB) w in
  match err with
  | Some _ =>
      run _ <- Close db then
      Fatal "InsertPair: getDatabase"
  | None =>
      run (err, w) <- Exec_insert db pair w then
      match err with
      | Some _ =>
          run _ <- Close db then
          Fatal "InsertPair: error inserting pairs into database"
      | None =>
          run _ <- Close db then
          Done (None, w)
      end
  end.

End Store.

(** ** MapTask.Process

    [Process] runs on the calling goroutine up to its [go] statement and
    then returns [err]; the function literal it starts scans the rows on
    a goroutine of its own, and starts one more goroutine per row to
    receive the pairs that row's [Map] sends.  The variables [err] and
    [*task] are shared by all of them.

    The rows are those the query found, each holding two strings, so
    that [rows.Scan] does not fail; open handles are not tracked, so the
    deferred [db.Close()] has no effect in the model. *)

Inductive Goroutine : Type :=
| Scanner (rows : list Pair)
    (* the outer function literal, at [rows.Next()] *)
| Mapper (output : nat) (sending : list Pair) (ret : error)
         (rows : list Pair)
    (* the same goroutine inside [client.Map], which has [sending] left
       to send on [output] and will return [ret] *)
| Receiver (output : nat)
    (* an inner function literal, at [range output] *)
| Inserter (output : nat) (pair : Pair).
    (* the same, holding a received pair, at [InsertPair] *)

Record Config : Type := mkConfig {
  world : World;
  task : MapTask.t;            (* [*task] *)
  err : error;                 (* the variable [err] of [Process] *)
  pool : gmap nat Goroutine;   (* the goroutines started and not finished *)
  closed : gset nat;           (* the channels closed *)
  chans : nat                  (* the number of channels made *)
}.

(** Goroutine 0 is the scanner; the receiver of channel [ch] is
    goroutine [S ch]. *)
Definition scanner_id : nat := 0%nat.
Definition receiver_id (ch : nat) : nat := S ch.

Definition incr_M (t : MapTask.t) : MapTask.t :=
  MapTask.mk (wrap_int (MapTask.M t + 1)) (MapTask.R t) (MapTask.N t)
             (MapTask.SourceHost t).

Definition log_error (line : string) (e : error) (w : World) : World :=
  match e with
  | Some _ => log_Printf line w
  | None => w
  end.

Inductive Started : Type :=
| Returned (e : error) (w : World)   (* a [return err] before the [go] *)
| Spawned (c : Config).              (* the state after the [go] statement *)

Section MapTaskProcess.
Context `{FilePath}.
Variable path : string.
Variable client : Interface.

(** One step of goroutine [i], if it has one to take; [None] when it
    is blocked or not there. *)
Definition goroutine_step (i : nat) (c : Config) : option (outcome Config) :=
  match pool c !! i with
  | None => None
  | Some (Scanner []) =>
      (* rows.Next() is false: the deferred rows.Close(), and the end *)
      Some (Done (mkConfig (world c) (task c) (err c) (delete i (pool c))
                           (closed c) (chans c)))
  | Some (Scanner (row :: rows)) =>
      (* err = rows.Scan(...), which is nil; make(chan Pair); the inner
         go; the call of Map *)
      let output := chans c in
      let '(sending, ret) := Map client (Key row) (Value row) in
      Some (Done (mkConfig
                    (record (CallMap (Key row) (Value row)) (world c))
                    (task c) None
                    (<[receiver_id output := Receiver output]>
                       (<[i := Mapper output sending ret rows]> (pool c)))
                    (closed c) (S (chans c))))
  | Some (Mapper output (p :: sending) ret rows) =>
      (* output <- p, with the receiver ready at range output *)
      match pool c !! receiver_id output with
      | Some (Receiver _) =>
          Some (Done (mkConfig (world c) (task c) (err c)
                        (<[receiver_id output := Inserter output p]>
                           (<[i := Mapper output sending ret rows]> (pool c)))
                        (closed c) (chans c)))
      | _ => None
      end
  | Some (Mapper output [] ret rows) =>
      (* Map closes output and returns; err = ...; task.M++ *)
      Some (Done (mkConfig (log_error "Client.Map" ret (world c))
                           (incr_M (task c)) ret
                           (<[i := Scanner rows]> (pool c))
                           ({[output]} ∪ closed c) (chans c)))
  | Some (Receiver output) =>
      if decide (output ∈ closed c)
      then Some (Done (mkConfig (world c) (task c) (err c)
                                (delete i (pool c)) (closed c) (chans c)))
      else None
  | Some (Inserter output p) =>
      Some (run (e, w) <- InsertPair (task c) path p (world c) then
            Done (mkConfig (log_error "MapTask.Process: InsertPair" e w)
                           (task c) e
                           (<[i := Receiver output]> (pool c))
                           (closed c) (chans c)))
  end.

Definition step (c c' : Config) : Prop :=
  exists i, goroutine_step i c = Some (Done c').

(** The steps taken under a schedule, a list of goroutine numbers; a
    goroutine that cannot step when scheduled is passed over. *)
Fixpoint run_schedule (schedule : list nat) (c : Config) : outcome Config :=
  match schedule with
  | [] => Done c
  | i :: schedule' =>
      match goroutine_step i c with
      | None => run_schedule schedule' c
      | Some o => run c' <- o then run_schedule schedule' c'
      end
  end.

(** [Process] up to and including its [go] statement. *)
Definition MapTask_Process_go (t : MapTask.t) (w : World) : outcome Started :=
  let file := mapSourceFile (MapTask.N t) in
  let url := makeURL (MapTask.SourceHost t) file in
  let mapFile := mapInputFile (MapTask.N t) in
  let '(err, w) := download url mapFile w in
  let w := log_error "MapTask.Process: error in downloading path" err w in
  let '(db, err, w) := openDatabase mapFile w in
  match err with
  | Some _ => Done (Returned err (log_Printf "error in op" w))
  | None =>
      run (rows, err) <- Query_pairs db w then
      match err with
      | Some _ =>
          Done (Returned err
                  (log_Printf
                     "error in select query from database to get pairs" w))
      | None =>
          Done (Spawned (mkConfig w t err {[scanner_id := Scanner rows]}
                                  ∅ 0%nat))
      end
  end.

(** [task.Process(path, client)] returns [e], leaving [c]: the final
    [return err] reads [err] after any number of steps of the
    goroutines started, which go on from [c] afterwards. *)
Inductive MapTask_Process (t : MapTask.t) (w : World)
  : error -> Config -> Prop :=
| Process_returns_early e w' :
    MapTask_Process_go t w = Done (Returned e w') ->
    MapTask_Process t w e (mkConfig w' t e ∅ ∅ 0%nat)
| Process_returns_after_go c c' :
    MapTask_Process_go t w = Done (Spawned c) ->
    rtc step c c' ->
    MapTask_Process t w (err c') c'.

End MapTaskProcess.

(** ** ReduceTask.Process *)

(** The order of a store read in key order: by key, then by value. *)
Definition pair_leb (a b : Pair) : bool :=
  String.ltb (Key a) (Key b)
  || (String.eqb (Key a) (Key b) && String.leb (Value a) (Value b)).

Fixpoint merge_one (p : Pair) (sorted : list Pair) : list Pair :=
  match sorted with
  | [] => [p]
  | q :: sorted' =>
      if pair_leb p q then p :: sorted else q :: merge_one p sorted'
  end.

Definition merge_pairs (source sorted : list Pair) : list Pair :=
  foldr merge_one sorted source.

(** The sources fetched in turn into [temp] and merged into the store
    at [path]; a source that cannot be fetched or read is an error. *)
Fixpoint merge_sources (urls : list string) (path temp : string) (w : World)
  : error * World :=
  match urls with
  | [] => (None, w)
  | url :: urls' =>
      let '(err, w) := download url temp w in
      match err with
      | Some _ => (err, w)
      | None =>
          match files w !! temp, files w !! path with
          | Some (Database source), Some (Database sorted) =>
              merge_sources urls' path temp
                (set_files (insert path (Database (merge_pairs source sorted)))
                           w)
          | _, _ => (Some (ErrIO "no such table: pairs"), w)
          end
      end
  end.

(** Modelled from the spec: [mergeDatabases] is not in worker.go; the
    merge engine, which leaves in a new store at [path] the sorted union
    of the pairs of every source, every pair preserved. *)
Definition mergeDatabases (urls : list string) (path temp : string) (w : World)
  : DB * error * World :=
  let '(db, err, w) := createDatabase path w in
  match err with
  | Some _ => (None, err, w)
  | None =>
      let '(err, w) := merge_sources urls path temp w in
      match err with
      | Some _ => (None, err, w)
      | None => (db, None, w)
      end
  end.

(** The loop [for m < task.M] over [n] more rounds: an index outside
    [task.SourceHosts] is a run-time panic. *)
Fixpoint reduce_temp_loop (t : ReduceTask.t) (n : nat) (m : Z)
         (reduce_temp_files : list string) : outcome (list string) :=
  match n with
  | O => Done reduce_temp_files
  | S n' =>
      let file := mapOutputFile m (ReduceTask.N t) in
      match ReduceTask.SourceHosts t !! Z.to_nat m with
      | None => Panic "runtime error: index out of range"
      | Some host =>
          let url := makeURL host file in
          reduce_temp_loop t n' (m + 1) (reduce_temp_files ++ [url])%list
      end
  end.

Definition ReduceTask_Process (t : ReduceTask.t) (path : string)
           (client : Interface) (w : World) : outcome (error * World) :=
  run reduce_temp_files <-
    reduce_temp_loop t (Z.to_nat (ReduceTask.M t)) 0 [] then
  let '(db, err, w) :=
    mergeDatabases reduce_temp_files (reduceInputFile (ReduceTask.N t))
                   (reduceTempFile (ReduceTask.N t)) w in
  match err with
  | Some _ => Fatal "No, merge did not work for some reason"
  | None =>
      run _ <- Close db then
      Done (None, w)
  end.

(** ** main: the task counts and the construction of the tasks *)

(** [m := number_of_rows / page_count; r := m / 2], the division of
    [int] truncating toward zero. *)
Definition main_counts (number_of_rows page_count : Z) : outcome (Z * Z) :=
  if page_count =? 0
  then Panic "runtime error: integer divide by zero"
  else let m := wrap_int (Z.quot number_of_rows page_count) in
       let r := Z.quot m 2 in
       Done (m, r).

(** [make([]string, m)] *)
Definition make_strings (m : Z) : outcome (list string) :=
  if m <? 0
  then Panic "runtime error: makeslice: len out of range"
  else Done (replicate (Z.to_nat m) "").

Definition build_mapTasks (m r : Z) (the_address : string) : list MapTask.t :=
  map (fun i => MapTask.mk m r i the_address) (seqZ 0 m).

Fixpoint build_reduceTasks (m r : Z) (indices : list Z)
         (reduceTasks : list ReduceTask.t) : outcome (list ReduceTask.t) :=
  match indices with
  | [] => Done reduceTasks
  | i :: indices' =>
      run hosts <- make_strings m then
      build_reduceTasks m r indices'
        (reduceTasks ++ [ReduceTask.mk m r i hosts])%list
  end.

(** The two loops of [main] that build the tasks. *)
Definition main_tasks (m r : Z) (the_address : string)
  : outcome (list MapTask.t * list ReduceTask.t) :=
  let mapTasks := build_mapTasks m r the_address in
  run reduceTasks <- build_reduceTasks m r (seqZ 0 r) [] then
  Done (mapTasks, reduceTasks).

(** ** createPaths *)

(** The constants declared with [iota]. *)
Definition mapSource : Z := 0.
Definition mapInput : Z := 1.
Definition mapOutput : Z := 2.
Definition reduceInput : Z := 3.
Definition reduceOutput : Z := 4.
Definition reducePartial : Z := 5.
Definition reduceTemp : Z := 6.

Section CreatePaths.
Context `{FilePath}.

(** The [switch] of the loop body: the path appended for index [i], if
    [typeOfFile] is one of the constants; no case, no path. *)
Definition createPaths_case (typeOfFile : Z) (tmp : string) (i : Z)
           (paths : list string) : list string :=
  if typeOfFile =? mapSource
  then (paths ++ [filepath_Join tmp (mapSourceFile i)])%list
  else if typeOfFile =? mapInput
  then (paths ++ [filepath_Join tmp (mapInputFile i)])%list
  else if typeOfFile =? mapOutput
  then (paths ++ [filepath_Join tmp (mapOutputFile i i)])%list
  else if typeOfFile =? reduceInput
  then (paths ++ [filepath_Join tmp (reduceInputFile i)])%list
  else if typeOfFile =? reduceOutput
  then (paths ++ [filepath_Join tmp (reduceOutputFile i)])%list
  else if typeOfFile =? reducePartial
  then (paths ++ [filepath_Join tmp (reducePartialFile i)])%list
  else if typeOfFile =? reduceTemp
  then (paths ++ [filepath_Join tmp (reduceTempFile i)])%list
  else paths.

(** The loop [for i < amount], with [n] rounds to go. *)
Fixpoint createPaths_loop (n : nat) (i : Z) (typeOfFile : Z) (tmp : string)
         (paths : list string) : list string :=
  match n with
  | O => paths
  | S n' =>
      createPaths_loop n' (i + 1) typeOfFile tmp
                       (createPaths_case typeOfFile tmp i paths)
  end.

Definition createPaths (amount typeOfFile : Z) (tmp : string) : list string :=
  createPaths_loop (Z.to_nat amount) 0 typeOfFile tmp [].

End CreatePaths.

(** ** main: the map phase *)

(** The inner loop [for _, reduce := range reduceTasks] of the map
    phase: [reduce.SourceHosts[i] = the_address], an index outside the
    slice being a run-time panic. *)
Fixpoint set_SourceHosts (i : nat) (the_address : string)
         (reduceTasks : list ReduceTask.t) : outcome (list ReduceTask.t) :=
  match reduceTasks with
  | [] => Done []
  | reduce :: reduceTasks' =>
      if decide (i < length (ReduceTask.SourceHosts reduce))%nat
      then
        run rest <- set_SourceHosts i the_address reduceTasks' then
        Done (ReduceTask.mk (ReduceTask.M reduce) (ReduceTask.R reduce)
                            (ReduceTask.N reduce)
                            (<[i := the_address]>
                               (ReduceTask.SourceHosts reduce))
                :: rest)
      else Panic "runtime error: index out of range"
  end.

(** The loop [for i, task := range mapTasks], from round [i] on, as far
    as the reduce tasks go: [returned i] is what the call of
    [task.Process] of round [i] returns; an error ends the program in
    [log.Fatalf], otherwise the address is recorded in slot [i] of
    every reduce task. *)
Fixpoint main_map_phase (returned : nat -> error) (the_address : string)
         (i : nat) (mapTasks : list MapTask.t)
         (reduceTasks : list ReduceTask.t) : outcome (list ReduceTask.t) :=
  match mapTasks with
  | [] => Done reduceTasks
  | _ :: mapTasks' =>
      match returned i with
      | Some _ => Fatal "there was an error with processing the maptask: "
      | None =>
          run reduceTasks <- set_SourceHosts i the_address reduceTasks then
          main_map_phase returned the_address (S i) mapTasks' reduceTasks
      end
  end.

(** ** Instances for the examples *)

(** Tables with nothing above the ASCII range. *)
Definition ascii_tables : UnicodeTables :=
  {| wide_IsSpace := fun _ => false;
     wide_IsLetter := fun _ => false;
     wide_IsDigit := fun _ => false;
     wide_ToLower := fun r => r;
     wide_ToLower_rune := fun r Hr => Hr |}.

(** [Join] of a clean directory and a file name. *)
Definition slash_join : FilePath :=
  {| filepath_Join := fun dir name => dir ++ "/" ++ name |}.

Definition word_count : Interface := @Client ascii_tables.

Definition no_files : gmap string File := ∅.

(** ** Notions the properties are stated with *)

(** The pairs of the store at [path]; none when there is no store. *)
Definition stored (w : World) (path : string) : list Pair :=
  match files w !! path with
  | Some (Database ps) => ps
  | _ => []
  end.

(** The word count of the specification: a token is a field between
    white space; its normalization drops every rune that is not a
    letter or a digit and lower-cases the rest; one pair [(w, "1")] is
    emitted per token whose normalization [w] is not empty. *)
Section WordCountSpec.
Context `{UnicodeTables}.

(** The pieces of a decoded string between its white-space runes. *)
Fixpoint split_at_spaces (s : list (Z * list Z)) : list (list (Z * list Z)) :=
  match s with
  | [] => [[]]
  | x :: s' =>
      if unicode.IsSpace x.1 then [] :: split_at_spaces s'
      else match split_at_spaces s' with
           | piece :: pieces => (x :: piece) :: pieces
           | [] => [[x]]
           end
  end.

Definition piece_bytes (piece : list (Z * list Z)) : list Z :=
  concat (map snd piece).

Definition has_rune (piece : list (Z * list Z)) : bool :=
  match piece with
  | [] => false
  | _ :: _ => true
  end.

(** The tokens: the pieces that are not empty, as strings. *)
Definition tokens (value : string) : list string :=
  map (fun piece => string_of_bytes (piece_bytes piece))
      (List.filter has_rune
                   (split_at_spaces (utf8.decode (bytes_of_string value)))).

Definition letter_or_digit (r : Z) : bool :=
  unicode.IsLetter r || unicode.IsDigit r.

Definition normalize (token : string) : string :=
  utf8.string_of_runes
    (map unicode.ToLower (List.filter letter_or_digit (utf8.runes token))).

Definition nonempty (word : string) : bool := negb (String.eqb word "").

Definition word_pairs (value : string) : list Pair :=
  map (fun w => mkPair w "1")
      (List.filter nonempty (map normalize (tokens value))).

End WordCountSpec.

(** A decoded rune that is a code point. *)
Definition rune_nonneg (x : Z * list Z) : Prop := 0 <= x.1.

(** The value [v] parses as the decimal integer [i]. *)
Definition parses (v : string) (i : Z) : Prop := strconv.Atoi v = (i, None).

(** The value [v] does not parse as an integer. *)
Definition unparsable (v : string) : Prop := (strconv.Atoi v).2 <> None.

Definition sum_of (ints : list Z) : Z := foldr Z.add 0 ints.

(** The grouping of a key-sorted sequence by consecutive equal keys:
    each maximal run of pairs sharing a key, as the key and the run's
    values. *)
Fixpoint group_by_key (ps : list Pair) : list (string * list string) :=
  match ps with
  | [] => []
  | p :: ps' =>
      match group_by_key ps' with
      | (k, vs) :: gs =>
          if String.eqb (Key p) k
          then (k, Value p :: vs) :: gs
          else (Key p, [Value p]) :: (k, vs) :: gs
      | [] => [(Key p, [Value p])]
      end
  end.

(** The calls of the reducer the specification asks of a reduce task
    whose merged input is [merged]: one per distinct key. *)
Definition reduce_calls (merged : list Pair) : list Call :=
  map (fun g => CallReduce g.1 g.2) (group_by_key merged).

(** A reduce task of two map outputs, and the world it runs in. *)
Definition two_sources : ReduceTask.t :=
  ReduceTask.mk 2 1 0 ["h:8080"; "h:8080"].

Definition two_outputs : World :=
  mkWorld ∅
    {[ "http://h:8080/data/map_0_output_0.db" :=
         Database [mkPair "a" "1"; mkPair "b" "1"];
       "http://h:8080/data/map_1_output_0.db" :=
         Database [mkPair "a" "1"] ]}
    [] [].

(** A map task of one shard; a world that serves its source, one row;
    and a world that serves nothing, in which an input file of an
    earlier run is still there. *)
Definition one_shard : MapTask.t := MapTask.mk 1 1 0 "h:8080".

Definition one_row : World :=
  mkWorld ∅
    {[ "http://h:8080/data/map_0_source.db" := Database [mkPair "doc" "a"] ]}
    [] [].

Definition stale_input : World :=
  mkWorld {[ "map_0_input.db" := Database [mkPair "old" "x"] ]} ∅ [] [].

(** The configuration an outcome holds, [c] when it holds none. *)
Definition reached (o : outcome Config) (c : Config) : Config :=
  match o with
  | Done c' => c'
  | _ => c
  end.

(** The state of [one_shard] in [one_row] after the [go] statement. *)
Definition one_row_spawned : Config :=
  mkConfig
    (mkWorld {[ "map_0_input.db" := Database [mkPair "doc" "a"] ]}
             (served one_row) [] [])
    one_shard None {[ scanner_id := Scanner [mkPair "doc" "a"] ]} ∅ 0%nat.

(** The schedule that lets the scanner and its receiver run to the end:
    scan, send, insert, return from [Map], end of rows, end of range. *)
Definition to_the_end : list nat := [0; 0; 1; 0; 0; 1]%nat.

(** The rows the scanner has not finished with: those not yet scanned,
    and the one whose [Map] is running. *)
Definition rows_left (c : Config) : nat :=
  match pool c !! scanner_id with
  | Some (Scanner rows) => length rows
  | Some (Mapper _ _ _ rows) => S (length rows)
  | _ => 0%nat
  end.

Definition is_receiver (g : Goroutine) : bool :=
  match g with
  | Receiver _ | Inserter _ _ => true
  | Scanner _ | Mapper _ _ _ _ => false
  end.

(** Goroutine 0 is the scanner and the others are receivers. *)
Definition well_pooled (c : Config) : Prop :=
  forall i g, pool c !! i = Some g -> is_receiver g = negb (Nat.eqb i scanner_id).

(** [task.M] counts the rows done, from [M0], on a shard of [n] rows. *)
Definition counts_rows (M0 : Z) (n : nat) (c : Config) : Prop :=
  well_pooled c /\
  (rows_left c <= n)%nat /\
  MapTask.M (task c) = wrap_int (M0 + Z.of_nat (n - rows_left c)).

(** Every character of [s] satisfies [P]. *)
Fixpoint string_forall (P : ascii -> bool) (s : string) : bool :=
  match s with
  | EmptyString => true
  | String c s' => P c && string_forall P s'
  end.

(** The characters [strconv.Itoa] writes. *)
Definition digit_or_minus (c : ascii) : bool :=
  let b := byte_of c in
  ((48 <=? b) && (b <=? 57)) || (b =? 45).

(** The file name [createPaths] joins to [tmp] for [typeOfFile] and
    index [i]. *)
Definition file_name (typeOfFile i : Z) : option string :=
  if typeOfFile =? mapSource then Some (mapSourceFile i)
  else if typeOfFile =? mapInput then Some (mapInputFile i)
  else if typeOfFile =? mapOutput then Some (mapOutputFile i i)
  else if typeOfFile =? reduceInput then Some (reduceInputFile i)
  else if typeOfFile =? reduceOutput then Some (reduceOutputFile i)
  else if typeOfFile =? reducePartial then Some (reducePartialFile i)
  else if typeOfFile =? reduceTemp then Some (reduceTempFile i)
  else None.

(** Every value of the sequence parses, and the integers they parse
    to. *)
Definition all_parse (values : list string) : Prop :=
  Forall (fun v => (strconv.Atoi v).2 = None) values.

Definition parsed (values : list string) : list Z :=
  map (fun v => (strconv.Atoi v).1) values.

(** The values [Reduce] emits for [key], one run per group of values. *)
Definition partials (key : string) (groups : list (list string))
  : list string :=
  concat (map (fun g => map Value (Client_Reduce key g).1) groups).

Section Buckets.
Context `{FilePath}.

(** The store file [InsertPair] writes [pair] to, for a task whose [R]
    does not convert to the [uint32] zero. *)
Definition store_of (t : MapTask.t) (path : string) (pair : Pair) : string :=
  filepath_Join path
    (mapOutputFile (MapTask.N t)
       (fnv.Sum32 (bytes_of_string (Key pair)) mod to_uint32 (MapTask.R t))).

(** The pairs of a sequence inserted one after the other, as the loop
    [for pair := range output] does for the pairs of one channel; the
    first insertion that stops the process stops the sequence. *)
Fixpoint insert_all (t : MapTask.t) (path : string) (pairs : list Pair)
         (w : World) : outcome World :=
  match pairs with
  | [] => Done w
  | p :: pairs' =>
      run (_, w') <- InsertPair t path p w then
      insert_all t path pairs' w'
  end.

End Buckets.

(** The call of [Map] made for a row, and the rows the scanner has not
    yet handed to [Map]. *)
Definition call_of (row : Pair) : Call := CallMap (Key row) (Value row).

Definition rows_to_scan (c : Config) : list Pair :=
  match pool c !! scanner_id with
  | Some (Scanner rows) => rows
  | Some (Mapper _ _ _ rows) => rows
  | _ => []
  end.

(** The calls made so far and those still to make are, together, one
    call of [Map] per row, in row order, after the calls [calls0] made
    before. *)
Definition scans_rows (calls0 : list Call) (rows : list Pair) (c : Config)
  : Prop :=
  well_pooled c /\
  (calls (world c) ++ map call_of (rows_to_scan c))%list
  = (calls0 ++ map call_of rows)%list.

(** The shape the goroutines of [Process] keep: besides the scanner
    there are only receivers, each on the goroutine of its channel; a
    closed channel is one that was made; while [Map] runs, its channel
    is open and its receiver is there; and every other channel made is
    closed. *)
Definition live (c : Config) : Prop :=
  well_pooled c /\
  (forall i g, i <> scanner_id -> pool c !! i = Some g ->
     exists ch, i = receiver_id ch /\ (ch < chans c)%nat /\
                (g = Receiver ch \/ exists p, g = Inserter ch p)) /\
  (forall ch, ch ∈ closed c -> (ch < chans c)%nat) /\
  (forall ch sending ret rows,
      pool c !! scanner_id = Some (Mapper ch sending ret rows) ->
      (ch ∉ closed c) /\ (ch < chans c)%nat /\
      is_Some (pool c !! receiver_id ch)) /\
  (forall ch, (ch < chans c)%nat ->
     ch ∈ closed c \/
     exists sending ret rows,
       pool c !! scanner_id = Some (Mapper ch sending ret rows)).

Section RowByRow.
Context `{FilePath}.

(** The rows of a shard handled one after the other, each to its end:
    [Map] is called on the row, the pairs it sends are inserted in
    order, and the error it returns is logged. *)
Fixpoint process_rows (t : MapTask.t) (path : string) (client : Interface)
         (rows : list Pair) (w : World) : outcome World :=
  match rows with
  | [] => Done w
  | row :: rows' =>
      run w1 <- insert_all t path (Map client (Key row) (Value row)).1
                           (record (call_of row) w) then
      process_rows t path client rows'
                   (log_error "Client.Map" (Map client (Key row) (Value row)).2
                              w1)
  end.

(** All the pairs [Map] sends for the rows, in order. *)
Definition emitted (client : Interface) (rows : list Pair) : list Pair :=
  concat (map (fun row => (Map client (Key row) (Value row)).1) rows).

End RowByRow.

(** The pool of a scanner in state [g0] and the receiver of channel
    [ch] in state [g1]. *)
Definition pool2 (g0 : Goroutine) (ch : nat) (g1 : Goroutine)
  : gmap nat Goroutine :=
  <[receiver_id ch := g1]> {[scanner_id := g0]}.

(** * Properties *)

(** ** Machine integers *)

Lemma wrap_int_id z : in_int z = true -> wrap_int z = z.
Proof.
  unfold in_int, wrap_int, int_min, int_max. intros Hz.
  apply andb_prop in Hz as [Hlo Hhi].
  apply Z.leb_le in Hlo. apply Z.leb_le in Hhi.
  rewrite Z.mod_small; lia.
Qed.

Lemma wrap_int_range z : in_int (wrap_int z) = true.
Proof.
  unfold in_int, wrap_int, int_min, int_max.
  pose proof (Z.mod_pos_bound (z + 2 ^ 63) (2 ^ 64) ltac:(lia)).
  apply andb_true_intro. split; apply Z.leb_le; lia.
Qed.

Lemma wrap_int_add_l x y : wrap_int (wrap_int x + y) = wrap_int (x + y).
Proof.
  unfold wrap_int.
  replace ((x + 2 ^ 63) mod 2 ^ 64 - 2 ^ 63 + y + 2 ^ 63)
    with ((x + 2 ^ 63) mod 2 ^ 64 + y) by lia.
  rewrite Z.add_mod_idemp_l by lia.
  f_equal. f_equal. lia.
Qed.

Lemma to_uint32_range z : 0 <= to_uint32 z < 2 ^ 32.
Proof. unfold to_uint32. apply Z.mod_pos_bound. lia. Qed.

Lemma to_uint32_small z : 0 <= z < 2 ^ 32 -> to_uint32 z = z.
Proof. unfold to_uint32. intros Hz. apply Z.mod_small. exact Hz. Qed.

Lemma to_uint32_le z : 0 <= z -> to_uint32 z <= z.
Proof. unfold to_uint32. intros Hz. apply Z.mod_le; lia. Qed.

(** ** The partition of keys over the buckets *)

Lemma bucket_Done key R :
  to_uint32 R <> 0 ->
  bucket key R = Done (fnv.Sum32 (bytes_of_string key) mod to_uint32 R).
Proof.
  intros HR. unfold bucket.
  destruct (Z.eqb_spec (to_uint32 R) 0) as [Heq | _]; [contradiction | reflexivity].
Qed.

Lemma bucket_Panic key R :
  to_uint32 R = 0 ->
  bucket key R = Panic "runtime error: integer divide by zero".
Proof. intros HR. unfold bucket. rewrite HR. reflexivity. Qed.

(** C6, as stated, fails: [R = 2^32] is positive and converts to the
    [uint32] zero, so that no index is computed. *)
Lemma bucket_range_counterexample :
  0 < 4294967296 /\
  ~ (exists r, bucket "a" 4294967296 = Done r /\ 0 <= r < 4294967296).
Proof.
  split; [lia |].
  intros (r & Hr & _). vm_compute in Hr. discriminate Hr.
Qed.

(** C6, amended: for every key and every [R > 0] that [uint32] does not
    convert to zero, the bucket index of [InsertPair] is the FNV-32 hash
    of the key's bytes modulo [uint32(R)], which is [R] itself below
    2^32; it lies in [[0, R)], and two tasks with the same [R] compute
    the same index for pairs with the same key, whatever their [N] and
    [M]. *)
Theorem bucket_range (key : string) (R : Z) :
  (0 < R -> to_uint32 R <> 0 ->
   exists r, bucket key R = Done r /\
             r = fnv.Sum32 (bytes_of_string key) mod to_uint32 R /\
             0 <= r < R /\
             (R < 2 ^ 32 -> r = fnv.Sum32 (bytes_of_string key) mod R)) /\
  (forall t t' p p',
      MapTask.R t = R -> MapTask.R t' = R -> Key p = key -> Key p' = key ->
      bucket (Key p) (MapTask.R t) = bucket (Key p') (MapTask.R t')).
Proof.
  split.
  - intros Hpos Hnz. eexists. split; [apply bucket_Done; exact Hnz |].
    split; [reflexivity |].
    pose proof (to_uint32_range R) as Hd.
    pose proof (to_uint32_le R ltac:(lia)) as Hle.
    pose proof (Z.mod_pos_bound (fnv.Sum32 (bytes_of_string key))
                                (to_uint32 R) ltac:(lia)) as Hm.
    split; [lia |].
    intros Hlt. rewrite to_uint32_small by lia. reflexivity.
  - intros t t' p p' -> -> -> ->. reflexivity.
Qed.

Lemma bucket_range_witness :
  (exists r, bucket "a" 4 = Done r /\
             r = fnv.Sum32 (bytes_of_string "a") mod to_uint32 4 /\
             0 <= r < 4 /\
             (4 < 2 ^ 32 -> r = fnv.Sum32 (bytes_of_string "a") mod 4)) /\
  bucket (Key (mkPair "a" "1")) (MapTask.R (MapTask.mk 3 4 0 "h:8080")) =
  bucket (Key (mkPair "a" "2")) (MapTask.R (MapTask.mk 5 4 2 "h:8080")).
Proof.
  split.
  - apply (proj1 (bucket_range "a" 4)).
    + lia.
    + vm_compute. discriminate.
  - apply (proj2 (bucket_range "a" 4)); reflexivity.
Defined.

(** ** InsertPair *)

(** C7, as stated, fails: a task with [R = 2^32 > 0] appends to no
    store, [InsertPair] panics on the division. *)
Lemma InsertPair_counterexample :
  0 < MapTask.R (MapTask.mk 1 4294967296 0 "h:8080") /\
  @InsertPair slash_join (MapTask.mk 1 4294967296 0 "h:8080") "tmp"
              (mkPair "a" "1") (mkWorld no_files no_files [] [])
  = Panic "runtime error: integer divide by zero".
Proof. split; reflexivity. Qed.

Section InsertPairProperties.
Context `{FilePath}.

(** C7, amended: for every task whose [R > 0] does not convert to the
    [uint32] zero (every [0 < R < 2^32] among them) and every pair,
    when the bucket store [map_<N>_output_<r>.db] under [path], with
    [r] the FNV-32 hash of the key modulo [uint32(R)], is absent or is
    a store, [InsertPair] returns without error having appended the
    pair to that store, made empty first if it was absent, and every
    other file is as it was. *)
Theorem InsertPair_appends (t : MapTask.t) (path : string) (pair : Pair)
        (w : World) :
  0 < MapTask.R t ->
  to_uint32 (MapTask.R t) <> 0 ->
  let r := fnv.Sum32 (bytes_of_string (Key pair))
           mod to_uint32 (MapTask.R t) in
  let store := filepath_Join path (mapOutputFile (MapTask.N t) r) in
  (files w !! store = None \/
   exists ps, files w !! store = Some (Database ps)) ->
  exists w',
    InsertPair t path pair w = Done (None, w') /\
    files w' !! store = Some (Database (stored w store ++ [pair])%list) /\
    (forall p, p <> store -> files w' !! p = files w !! p).
Proof.
  intros Hpos HR r store Hstore.
  unfold InsertPair.
  rewrite bucket_Done by exact HR. cbn [obind].
  fold r. fold store. unfold getDatabase, stored.
  destruct Hstore as [Hnone | [ps Hsome]].
  - rewrite Hnone. cbn. rewrite lookup_insert_eq. cbn.
    eexists. split; [reflexivity |]. cbn. split.
    + rewrite lookup_insert_eq. reflexivity.
    + intros p Hp. rewrite !lookup_insert_ne by congruence. reflexivity.
  - rewrite Hsome. unfold openDatabase. rewrite Hsome. cbn.
    rewrite Hsome. cbn.
    eexists. split; [reflexivity |]. cbn. split.
    + rewrite lookup_insert_eq. reflexivity.
    + intros p Hp. rewrite lookup_insert_ne by congruence. reflexivity.
Qed.

End InsertPairProperties.

Lemma InsertPair_appends_witness :
  exists w',
    @InsertPair slash_join (MapTask.mk 1 4 0 "h:8080") "tmp" (mkPair "a" "1")
                (mkWorld no_files no_files [] [])
    = Done (None, w') /\
    files w' !! "tmp/map_0_output_2.db" = Some (Database [mkPair "a" "1"]) /\
    (forall p, p <> "tmp/map_0_output_2.db" -> files w' !! p = no_files !! p).
Proof.
  apply (@InsertPair_appends slash_join (MapTask.mk 1 4 0 "h:8080") "tmp"
           (mkPair "a" "1") (mkWorld no_files no_files [] [])).
  - cbn. lia.
  - vm_compute. discriminate.
  - left. reflexivity.
Defined.

(** ** The word-count Map *)

Lemma bytes_of_string_nonneg s : Forall (fun b => 0 <= b) (bytes_of_string s).
Proof.
  induction s as [| c s IH]; cbn; constructor; [| exact IH].
  unfold byte_of. lia.
Qed.

Lemma rune2_nonneg b0 b1 : 0 <= utf8.rune2 b0 b1.
Proof.
  unfold utf8.rune2. apply Z.lor_nonneg. split.
  - apply Z.shiftl_nonneg. apply Z.land_nonneg. right. lia.
  - apply Z.land_nonneg. right. lia.
Qed.

Lemma rune3_nonneg b0 b1 b2 : 0 <= utf8.rune3 b0 b1 b2.
Proof.
  unfold utf8.rune3. repeat (apply Z.lor_nonneg; split);
    try apply Z.shiftl_nonneg; apply Z.land_nonneg; right; lia.
Qed.

Lemma rune4_nonneg b0 b1 b2 b3 : 0 <= utf8.rune4 b0 b1 b2 b3.
Proof.
  unfold utf8.rune4. repeat (apply Z.lor_nonneg; split);
    try apply Z.shiftl_nonneg; apply Z.land_nonneg; right; lia.
Qed.

(** Every rune a [range] over a string yields is a code point, not a
    negative number. *)
Lemma decode_nonneg_bounded (n : nat) (s : list Z) :
  (length s <= n)%nat ->
  Forall (fun b => 0 <= b) s ->
  Forall rune_nonneg (utf8.decode s).
Proof.
  revert s. induction n as [| n IH]; intros s Hlen Hs.
  - destruct s; [constructor | cbn in Hlen; lia].
  - destruct s as [| b0 t1]; [constructor |].
    apply Forall_cons in Hs as [Hb0 Ht1].
    assert (Hrec1 : Forall rune_nonneg (utf8.decode t1))
      by (apply IH; [cbn in Hlen; lia | exact Ht1]).
    assert (Hbad : Forall rune_nonneg ((utf8.RuneError, [b0]) :: utf8.decode t1))
      by (constructor; [unfold rune_nonneg, utf8.RuneError; cbn; lia | exact Hrec1]).
    cbn [utf8.decode].
    destruct (b0 <? utf8.RuneSelf);
      [constructor; [exact Hb0 | exact Hrec1] |].
    destruct t1 as [| b1 t2]; [exact Hbad |].
    apply Forall_cons in Ht1 as [_ Ht2].
    destruct (negb (utf8.second_ok b0 b1)); [exact Hbad |].
    destruct (utf8.between 194 223 b0).
    { constructor; [apply rune2_nonneg |].
      apply IH; [cbn in Hlen; lia | exact Ht2]. }
    destruct t2 as [| b2 t3]; [exact Hbad |].
    apply Forall_cons in Ht2 as [_ Ht3].
    destruct (negb (utf8.cont b2)); [exact Hbad |].
    destruct (utf8.between 224 239 b0).
    { constructor; [apply rune3_nonneg |].
      apply IH; [cbn in Hlen; lia | exact Ht3]. }
    destruct t3 as [| b3 t4]; [exact Hbad |].
    apply Forall_cons in Ht3 as [_ Ht4].
    destruct (utf8.cont b3 && utf8.between 240 244 b0); [| exact Hbad].
    constructor; [apply rune4_nonneg |].
    apply IH; [cbn in Hlen; lia | exact Ht4].
Qed.

Lemma runes_nonneg (s : string) : Forall (fun r => 0 <= r) (utf8.runes s).
Proof.
  unfold utf8.runes.
  pose proof (decode_nonneg_bounded (length (bytes_of_string s))
                (bytes_of_string s) (le_n _) (bytes_of_string_nonneg s)) as Hd.
  induction Hd as [| [r bs] l Hr _ IH]; cbn; constructor; assumption.
Qed.

Section ClientMapProperties.
Context `{UnicodeTables}.

Lemma ToLower_nonneg r : 0 <= r -> 0 <= unicode.ToLower r.
Proof.
  intros Hr. unfold unicode.ToLower.
  destruct (r <=? unicode.MaxASCII) eqn:Hascii.
  - destruct (utf8.between 65 90 r); lia.
  - apply wide_ToLower_rune. exact Hr.
Qed.

(** [strings.Map] with the function literal of [Map] is the
    normalization. *)
Lemma Map_letters_and_digits (token : string) :
  strings.Map letters_and_digits token = normalize token.
Proof.
  unfold strings.Map, normalize, utf8.string_of_runes. f_equal.
  pose proof (runes_nonneg token) as Hrunes.
  induction Hrunes as [| r rs Hr _ IH]; [reflexivity |].
  cbn [map concat]. rewrite IH. cbn [List.filter].
  change (letters_and_digits r)
    with (if letter_or_digit r then unicode.ToLower r else -1).
  destruct (letter_or_digit r).
  - pose proof (ToLower_nonneg r Hr) as Hlow.
    destruct (Z.ltb_spec (unicode.ToLower r) 0) as [Hneg | _]; [lia |].
    reflexivity.
  - reflexivity.
Qed.

Lemma length_pos_nonempty (word : string) :
  (0 <? Z.of_nat (String.length word)) = nonempty word.
Proof. destruct word; reflexivity. Qed.

Lemma Map_range_pairs (lst : list string) (output : list Pair) :
  Map_range lst output =
  (output ++ map (fun w => mkPair w "1")
                 (List.filter nonempty (map normalize lst)))%list.
Proof.
  revert output. induction lst as [| elt lst IH]; intros output.
  - cbn. rewrite app_nil_r. reflexivity.
  - cbn [Map_range map List.filter].
    rewrite Map_letters_and_digits, length_pos_nonempty.
    destruct (nonempty (normalize elt)).
    + rewrite IH, <- app_assoc. reflexivity.
    + apply IH.
Qed.

Lemma split_at_spaces_pieces (s : list (Z * list Z)) :
  split_at_spaces s <> [].
Proof.
  destruct s as [| x s]; cbn; [discriminate |].
  destruct (unicode.IsSpace x.1); [discriminate |].
  destruct (split_at_spaces s); discriminate.
Qed.

(** The fields the scan of [strings.Fields] finds, from a field begun
    or not, are the non-empty pieces between white-space runes. *)
Lemma fields_pieces (s : list (Z * list Z)) (span : option (list Z)) :
  strings.fields span s
  = match split_at_spaces s with
    | piece :: pieces =>
        (match span with
         | Some f => [(f ++ piece_bytes piece)%list]
         | None => if has_rune piece then [piece_bytes piece] else []
         end ++ map piece_bytes (List.filter has_rune pieces))%list
    | [] => []
    end.
Proof.
  revert span. induction s as [| [r bs] s IH]; intros span.
  - destruct span as [f |]; cbn; rewrite ?app_nil_r; reflexivity.
  - cbn [strings.fields split_at_spaces fst].
    destruct (unicode.IsSpace r).
    + assert (Hnone : strings.fields None s
                      = map piece_bytes (List.filter has_rune (split_at_spaces s))).
      { rewrite IH. destruct (split_at_spaces s) as [| piece pieces];
          [reflexivity |].
        cbn [List.filter]. destruct (has_rune piece); reflexivity. }
      destruct span as [f |]; rewrite Hnone; cbn; rewrite ?app_nil_r;
        reflexivity.
    + pose proof (split_at_spaces_pieces s) as Hpieces.
      destruct span as [f |]; rewrite IH;
        destruct (split_at_spaces s) as [| piece pieces];
        try contradiction; cbn; rewrite <- ?app_assoc; reflexivity.
Qed.

Lemma Fields_tokens (value : string) : strings.Fields value = tokens value.
Proof.
  unfold strings.Fields, tokens. rewrite fields_pieces.
  destruct (split_at_spaces _) as [| piece pieces]; [reflexivity |].
  cbn [List.filter]. destruct (has_rune piece); cbn; rewrite map_map; reflexivity.
Qed.

(** C8: for every input [(key, value)], the word-count [Map] emits,
    in token order, exactly one pair [(w, "1")] for each
    whitespace-separated token of [value] whose normalization [w]
    (the runes that are letters or digits, lower-cased) is not empty,
    nothing for the other tokens, and returns no error. *)
Theorem Client_Map_word_pairs (key value : string) :
  Client_Map key value = (word_pairs value, None).
Proof.
  unfold Client_Map, word_pairs.
  rewrite Map_range_pairs, Fields_tokens. reflexivity.
Qed.

End ClientMapProperties.

Lemma Client_Map_word_pairs_witness :
  @Client_Map ascii_tables "doc" "The CAT sat!"
  = (@word_pairs ascii_tables "The CAT sat!", None).
Proof. apply (@Client_Map_word_pairs ascii_tables "doc" "The CAT sat!"). Defined.

(** The sentence of the specification's round trip, mapped. *)
Example Client_Map_the_cat_sat :
  @Client_Map ascii_tables "doc" "the cat sat. The CAT sat!"
  = ([mkPair "the" "1"; mkPair "cat" "1"; mkPair "sat" "1";
      mkPair "the" "1"; mkPair "cat" "1"; mkPair "sat" "1"], None).
Proof. vm_compute. reflexivity. Qed.

(** ** The word-count Reduce *)

Lemma Reduce_range_sum (values : list string) (ints : list Z) (count : Z) :
  Forall2 parses values ints ->
  in_int count = true ->
  Reduce_range values count = (wrap_int (count + sum_of ints), None).
Proof.
  intros Hparse. revert count.
  induction Hparse as [| v i values ints Hv _ IH]; intros count Hcount.
  - cbn. rewrite Z.add_0_r, wrap_int_id by exact Hcount. reflexivity.
  - cbn [Reduce_range sum_of foldr]. unfold parses in Hv. rewrite Hv.
    rewrite IH by apply wrap_int_range.
    fold (sum_of ints). rewrite wrap_int_add_l. f_equal. f_equal. lia.
Qed.

Lemma Reduce_range_error (values : list string) (count : Z) :
  Exists unparsable values ->
  exists c e, Reduce_range values count = (c, Some e).
Proof.
  intros Hbad. revert count.
  induction Hbad as [v values Hv | v values _ IH]; intros count.
  - cbn. unfold unparsable in Hv.
    destruct (strconv.Atoi v) as [i [e |]]; [eauto | cbn in Hv; congruence].
  - cbn. destruct (strconv.Atoi v) as [i [e |]]; [eauto | apply IH].
Qed.

(** C9, as stated, fails: two values that parse, whose sum is 2^63;
    the pair emitted holds [-2^63], not the sum. *)
Lemma Client_Reduce_counterexample :
  parses "9223372036854775807" 9223372036854775807 /\
  parses "1" 1 /\
  Client_Reduce "k" ["9223372036854775807"; "1"]
  = ([mkPair "k" "-9223372036854775808"], None) /\
  strconv.Itoa (9223372036854775807 + 1) = "9223372036854775808" /\
  Client_Reduce "k" ["9223372036854775807"; "1"]
  <> ([mkPair "k" (strconv.Itoa (9223372036854775807 + 1))], None).
Proof.
  split; [vm_compute; reflexivity |].
  split; [vm_compute; reflexivity |].
  split; [vm_compute; reflexivity |].
  split; [vm_compute; reflexivity |].
  vm_compute. discriminate.
Qed.

(** C9, amended: for every key and every finite sequence of values
    that each parse as a decimal integer, the word-count [Reduce] emits
    exactly one pair [(key, s)] and returns no error, [s] being the
    decimal representation of the sum of the parsed values reduced to
    the 64 bits of an [int], which is the sum itself when that fits; if
    some value does not parse, [Reduce] returns an error and emits no
    pair. *)
Theorem Client_Reduce_sum (key : string) (values : list string) :
  (forall ints,
      Forall2 parses values ints ->
      Client_Reduce key values
      = ([mkPair key (strconv.Itoa (wrap_int (sum_of ints)))], None) /\
      (in_int (sum_of ints) = true ->
       Client_Reduce key values
       = ([mkPair key (strconv.Itoa (sum_of ints))], None))) /\
  (Exists unparsable values ->
   exists e, Client_Reduce key values = ([], Some e)).
Proof.
  split.
  - intros ints Hparse.
    assert (Hrun : Client_Reduce key values
                   = ([mkPair key (strconv.Itoa (wrap_int (sum_of ints)))], None)).
    { unfold Client_Reduce.
      rewrite (Reduce_range_sum values ints 0 Hparse) by reflexivity.
      reflexivity. }
    split; [exact Hrun |].
    intros Hfit. rewrite Hrun, wrap_int_id by exact Hfit. reflexivity.
  - intros Hbad. unfold Client_Reduce.
    destruct (Reduce_range_error values 0 Hbad) as (c & e & ->).
    eauto.
Qed.

Lemma Client_Reduce_sum_witness :
  Client_Reduce "the" ["1"; "1"]
  = ([mkPair "the" (strconv.Itoa (sum_of [1; 1]))], None) /\
  exists e, Client_Reduce "the" ["1"; "one"] = ([], Some e).
Proof.
  split.
  - refine (proj2 (proj1 (Client_Reduce_sum "the" ["1"; "1"]) [1; 1] _) _).
    + repeat constructor.
    + reflexivity.
  - apply (proj2 (Client_Reduce_sum "the" ["1"; "one"])).
    apply Exists_cons_tl, Exists_cons_hd. unfold unparsable. cbn. discriminate.
Defined.

(** The round trip of the specification: the pairs [Map] emits for the
    sentence, sorted and grouped by key, and each group reduced. *)
Example word_count_the_cat_sat :
  map (fun g => @Client_Reduce g.1 g.2)
      (group_by_key
         (merge_pairs
            (@Client_Map ascii_tables "doc" "the cat sat. The CAT sat!").1 []))
  = [([mkPair "cat" "2"], None); ([mkPair "sat" "2"], None);
     ([mkPair "the" "2"], None)].
Proof. vm_compute. reflexivity. Qed.

(** ** ReduceTask.Process *)

Lemma download_calls url path w : calls (download url path w).2 = calls w.
Proof. unfold download. destruct (served w !! url); reflexivity. Qed.

Lemma merge_sources_calls urls path temp w :
  calls (merge_sources urls path temp w).2 = calls w.
Proof.
  revert w. induction urls as [| url urls IH]; intros w; [reflexivity |].
  cbn [merge_sources].
  pose proof (download_calls url temp w) as Hd.
  destruct (download url temp w) as [[e |] w1]; cbn in Hd; [exact Hd |].
  destruct (files w1 !! temp) as [[source |] |]; try exact Hd.
  destruct (files w1 !! path) as [[sorted |] |]; try exact Hd.
  rewrite IH. exact Hd.
Qed.

Lemma mergeDatabases_calls urls path temp w :
  calls (mergeDatabases urls path temp w).2 = calls w.
Proof.
  unfold mergeDatabases. cbn.
  pose proof (merge_sources_calls urls path temp
                (set_files (insert path (Database [])) w)) as Hm.
  destruct (merge_sources urls path temp _) as [[e |] w1]; exact Hm.
Qed.

Lemma mergeDatabases_handle urls path temp w db w' :
  mergeDatabases urls path temp w = (db, None, w') -> db = Some path.
Proof.
  unfold mergeDatabases. cbn.
  destruct (merge_sources urls path temp _) as [[e |] w1]; congruence.
Qed.

(** Whatever the task and the client, a [Process] that returns has
    made no call to the client. *)
Lemma ReduceTask_Process_calls t path client w e w' :
  ReduceTask_Process t path client w = Done (e, w') ->
  e = None /\ calls w' = calls w.
Proof.
  unfold ReduceTask_Process.
  destruct (reduce_temp_loop t _ 0 []) as [urls | |]; cbn [obind]; try discriminate.
  pose proof (mergeDatabases_calls urls (reduceInputFile (ReduceTask.N t))
                (reduceTempFile (ReduceTask.N t)) w) as Hc.
  destruct (mergeDatabases urls _ _ w) as [[db [err |]] w1]; [discriminate |].
  destruct db; cbn; [| discriminate].
  intros [= <- <-]. split; [reflexivity | exact Hc].
Qed.

(** C1, where the code leaves the claim: a reduce task whose merged
    input holds two keys returns without error, and the reducer, which
    the claim has called once per key, has not been called; no output
    store exists. *)
Theorem ReduceTask_Process_no_Reduce :
  exists w',
    ReduceTask_Process two_sources "tmp" word_count two_outputs
    = Done (None, w') /\
    stored w' (reduceInputFile 0)
    = [mkPair "a" "1"; mkPair "a" "1"; mkPair "b" "1"] /\
    reduce_calls (stored w' (reduceInputFile 0))
    = [CallReduce "a" ["1"; "1"]; CallReduce "b" ["1"]] /\
    calls w' = [] /\
    files w' !! reduceOutputFile 0 = None /\
    files w' !! @filepath_Join slash_join "tmp" (reduceOutputFile 0) = None.
Proof.
  eexists. split; [vm_compute; reflexivity |].
  repeat split; vm_compute; reflexivity.
Qed.

(** The loop of [Process] from index [k], with [n] rounds to go, all
    within [SourceHosts]. *)
Lemma reduce_temp_loop_in_bounds t (n k : nat) (acc : list string) :
  (k + n <= length (ReduceTask.SourceHosts t))%nat ->
  exists urls,
    reduce_temp_loop t n (Z.of_nat k) acc = Done (acc ++ urls)%list /\
    length urls = n /\
    forall j, (j < n)%nat ->
      exists host,
        ReduceTask.SourceHosts t !! (k + j)%nat = Some host /\
        urls !! j
        = Some (makeURL host
                  (mapOutputFile (Z.of_nat (k + j)) (ReduceTask.N t))).
Proof.
  revert k acc. induction n as [| n IH]; intros k acc Hlen.
  - exists []. cbn. rewrite app_nil_r. repeat split. intros j Hj. lia.
  - cbn [reduce_temp_loop]. rewrite Nat2Z.id.
    destruct (lookup_lt_is_Some_2 (ReduceTask.SourceHosts t) k ltac:(lia))
      as [host Hhost].
    rewrite Hhost.
    replace (Z.of_nat k + 1) with (Z.of_nat (S k)) by lia.
    destruct (IH (S k) (acc ++ [makeURL host
                 (mapOutputFile (Z.of_nat k) (ReduceTask.N t))])%list
                 ltac:(lia)) as (urls & Hrun & Hn & Hurls).
    exists (makeURL host (mapOutputFile (Z.of_nat k) (ReduceTask.N t)) :: urls).
    split; [rewrite Hrun, <- app_assoc; reflexivity |].
    split; [cbn; lia |].
    intros [| j] Hj.
    + exists host. rewrite Nat.add_0_r. split; [exact Hhost | reflexivity].
    + destruct (Hurls j ltac:(lia)) as (host' & Hh & Hu).
      exists host'. replace (k + S j)%nat with (S k + j)%nat by lia.
      split; [exact Hh | exact Hu].
Qed.

(** The same loop running past the end of [SourceHosts]. *)
Lemma reduce_temp_loop_out_of_bounds t (n k : nat) (acc : list string) :
  (length (ReduceTask.SourceHosts t) < k + n)%nat ->
  (k <= length (ReduceTask.SourceHosts t))%nat ->
  reduce_temp_loop t n (Z.of_nat k) acc
  = Panic "runtime error: index out of range".
Proof.
  revert k acc. induction n as [| n IH]; intros k acc Hlen Hk; [lia |].
  cbn [reduce_temp_loop]. rewrite Nat2Z.id.
  destruct (ReduceTask.SourceHosts t !! k) as [host |] eqn:Hhost;
    [| reflexivity].
  apply lookup_lt_Some in Hhost.
  replace (Z.of_nat k + 1) with (Z.of_nat (S k)) by lia.
  apply IH; lia.
Qed.

(** C10: [ReduceTask.Process] indexes [SourceHosts[m]] for every [m]
    in [[0, M)] with no check of its own.  When [len(SourceHosts) >= M]
    every one of these accesses is in bounds, the loop yields the [M]
    addresses and [Process] does not panic; when the task carries fewer
    endpoints than [M], [Process] ends in a run-time panic, not in an
    error returned. *)
Theorem ReduceTask_Process_bounds (t : ReduceTask.t) (path : string)
        (client : Interface) (w : World) :
  (ReduceTask.M t <= Z.of_nat (length (ReduceTask.SourceHosts t)) ->
   (exists urls,
       reduce_temp_loop t (Z.to_nat (ReduceTask.M t)) 0 [] = Done urls /\
       length urls = Z.to_nat (ReduceTask.M t) /\
       forall m, 0 <= m < ReduceTask.M t ->
         exists host,
           ReduceTask.SourceHosts t !! Z.to_nat m = Some host /\
           urls !! Z.to_nat m
           = Some (makeURL host (mapOutputFile m (ReduceTask.N t)))) /\
   (forall msg, ReduceTask_Process t path client w <> Panic msg)) /\
  (Z.of_nat (length (ReduceTask.SourceHosts t)) < ReduceTask.M t ->
   ReduceTask_Process t path client w
   = Panic "runtime error: index out of range").
Proof.
  split.
  - intros Hlen.
    destruct (reduce_temp_loop_in_bounds t (Z.to_nat (ReduceTask.M t)) 0 []
                ltac:(lia)) as (urls & Hrun & Hn & Hurls).
    change (Z.of_nat 0) with 0 in Hrun. cbn [app] in Hrun. split.
    + exists urls. split; [exact Hrun |]. split; [exact Hn |].
      intros m Hm. destruct (Hurls (Z.to_nat m) ltac:(lia)) as (host & Hh & Hu).
      exists host. cbn in Hh, Hu. rewrite Z2Nat.id in Hu by lia.
      split; [exact Hh | exact Hu].
    + intros msg. unfold ReduceTask_Process. rewrite Hrun. cbn [obind].
      destruct (mergeDatabases urls _ _ w) as [[db [err |]] w1] eqn:Hmerge;
        [discriminate |].
      apply mergeDatabases_handle in Hmerge as ->. discriminate.
  - intros Hlen. unfold ReduceTask_Process.
    pose proof (reduce_temp_loop_out_of_bounds t (Z.to_nat (ReduceTask.M t))
                  0 [] ltac:(lia) ltac:(lia)) as Hrun.
    change (Z.of_nat 0) with 0 in Hrun. rewrite Hrun.
    reflexivity.
Qed.

Lemma ReduceTask_Process_bounds_witness :
  ((exists urls,
       reduce_temp_loop two_sources 2 0 [] = Done urls /\
       length urls = 2%nat /\
       forall m, 0 <= m < 2 ->
         exists host,
           ["h:8080"; "h:8080"] !! Z.to_nat m = Some host /\
           urls !! Z.to_nat m = Some (makeURL host (mapOutputFile m 0))) /\
   (forall msg,
       ReduceTask_Process two_sources "tmp" word_count two_outputs
       <> Panic msg)) /\
  ReduceTask_Process (ReduceTask.mk 2 1 0 ["h:8080"]) "tmp" word_count
                     two_outputs
  = Panic "runtime error: index out of range".
Proof.
  split.
  - apply (proj1 (ReduceTask_Process_bounds two_sources "tmp" word_count
                    two_outputs)).
    cbn. lia.
  - apply (proj2 (ReduceTask_Process_bounds (ReduceTask.mk 2 1 0 ["h:8080"])
                    "tmp" word_count two_outputs)).
    cbn. lia.
Defined.

(** ** MapTask.Process *)

Section MapTaskProcessProperties.
Context `{FilePath}.
Variable path : string.
Variable client : Interface.

Lemma run_schedule_steps (schedule : list nat) (c c' : Config) :
  run_schedule path client schedule c = Done c' ->
  rtc (step path client) c c'.
Proof.
  revert c. induction schedule as [| i schedule IH]; intros c Hrun.
  - cbn in Hrun. injection Hrun as ->. apply rtc_refl.
  - cbn [run_schedule] in Hrun.
    destruct (goroutine_step path client i c) as [[c1 | |] |] eqn:Hstep;
      cbn [obind] in Hrun; try discriminate.
    + eapply rtc_l; [exists i; exact Hstep | apply IH; exact Hrun].
    + apply IH. exact Hrun.
Qed.

(** A step leaves the task as it was, or has done [task.M++]. *)
Lemma step_task (c c' : Config) :
  step path client c c' ->
  task c' = task c \/ task c' = incr_M (task c).
Proof.
  intros [i Hstep]. unfold goroutine_step in Hstep.
  destruct (pool c !! i) as [[[| row rows] | output [| p sending] ret rows
                             | output | output p] |];
    try discriminate.
  - injection Hstep as <-. left. reflexivity.
  - destruct (Map client (Key row) (Value row)) as [sending ret].
    injection Hstep as <-. left. reflexivity.
  - injection Hstep as <-. right. reflexivity.
  - destruct (pool c !! receiver_id output) as [[| | |] |]; try discriminate.
    injection Hstep as <-. left. reflexivity.
  - destruct (decide (output ∈ closed c)); [| discriminate].
    injection Hstep as <-. left. reflexivity.
  - destruct (InsertPair (task c) path p (world c)) as [[e w] | |];
      cbn [obind] in Hstep; try discriminate.
    injection Hstep as <-. left. reflexivity.
Qed.

(** [R], [N] and [SourceHost] are the same after any number of steps. *)
Lemma steps_frame (c c' : Config) :
  rtc (step path client) c c' ->
  MapTask.R (task c') = MapTask.R (task c) /\
  MapTask.N (task c') = MapTask.N (task c) /\
  MapTask.SourceHost (task c') = MapTask.SourceHost (task c).
Proof.
  induction 1 as [c | c c1 c' Hstep _ IH]; [repeat split |].
  destruct IH as (HR & HN & HS). rewrite HR, HN, HS.
  destruct (step_task c c1 Hstep) as [-> | ->]; repeat split.
Qed.

(** Once at its [go] statement, [Process] may return at once, the
    scanner it has started still to run. *)
Lemma Process_returns_at_once (t : MapTask.t) (w : World) (c : Config) :
  MapTask_Process_go t w = Done (Spawned c) ->
  MapTask_Process path client t w None c /\
  exists rows, pool c !! scanner_id = Some (Scanner rows).
Proof.
  intros Hgo.
  assert (Hc : err c = None /\
               exists rows, pool c !! scanner_id = Some (Scanner rows)).
  { unfold MapTask_Process_go in Hgo.
    destruct (download _ _ w) as [e0 w0].
    destruct (openDatabase _ _) as [[db [e1 |]] w1]; [discriminate |].
    destruct (Query_pairs db w1) as [[rows [e2 |]] | |];
      cbn [obind] in Hgo; try discriminate.
    injection Hgo as <-. cbn [err pool]. split; [reflexivity |].
    exists rows. apply lookup_singleton_eq. }
  destruct Hc as [Herr Hpool]. split; [| exact Hpool].
  rewrite <- Herr. eapply Process_returns_after_go; [exact Hgo | apply rtc_refl].
Qed.

(** When the fetch fails and a local input file can be read,
    [Process] goes on to its [go] statement and can return [nil]. *)
Lemma Process_after_failed_fetch (t : MapTask.t) (w : World) (e : goerror)
      (rows : list Pair) :
  download (makeURL (MapTask.SourceHost t) (mapSourceFile (MapTask.N t)))
           (mapInputFile (MapTask.N t)) w = (Some e, w) ->
  files w !! mapInputFile (MapTask.N t) = Some (Database rows) ->
  exists c, MapTask_Process path client t w None c /\
            pool c !! scanner_id = Some (Scanner rows).
Proof.
  intros Hfetch Hlocal.
  assert (Hgo : MapTask_Process_go t w
                = Done (Spawned
                          (mkConfig
                             (log_Printf
                                "MapTask.Process: error in downloading path" w)
                             t None {[scanner_id := Scanner rows]} ∅ 0%nat))).
  { unfold MapTask_Process_go. rewrite Hfetch. cbn [log_error].
    unfold openDatabase. cbn [files log_Printf]. rewrite Hlocal.
    cbn [Query_pairs obind files log_Printf]. rewrite Hlocal. reflexivity. }
  eexists. split.
  - apply (Process_returns_at_once _ _ _ Hgo).
  - apply lookup_singleton_eq.
Qed.

End MapTaskProcessProperties.

Section RowCount.
Context `{FilePath}.
Variable path : string.
Variable client : Interface.

Lemma scanner_at_0 (c : Config) (i : nat) (g : Goroutine) :
  well_pooled c -> pool c !! i = Some g -> is_receiver g = false ->
  i = scanner_id.
Proof.
  intros Hwp Hi Hg. specialize (Hwp i g Hi). rewrite Hg in Hwp.
  destruct (Nat.eqb_spec i scanner_id); [assumption | discriminate].
Qed.

Lemma receiver_not_at_0 (c : Config) (i : nat) (g : Goroutine) :
  well_pooled c -> pool c !! i = Some g -> is_receiver g = true ->
  i <> scanner_id.
Proof.
  intros Hwp Hi Hg. specialize (Hwp i g Hi). rewrite Hg in Hwp.
  destruct (Nat.eqb_spec i scanner_id); [discriminate | assumption].
Qed.

Lemma well_pooled_insert (i : nat) (g : Goroutine) (p : gmap nat Goroutine) :
  (forall j g', p !! j = Some g' -> is_receiver g' = negb (Nat.eqb j scanner_id)) ->
  is_receiver g = negb (Nat.eqb i scanner_id) ->
  forall j g', <[i := g]> p !! j = Some g' ->
               is_receiver g' = negb (Nat.eqb j scanner_id).
Proof.
  intros Hp Hg j g' Hj. rewrite lookup_insert in Hj.
  destruct (decide (i = j)) as [<- | _]; [| exact (Hp j g' Hj)].
  injection Hj as <-. exact Hg.
Qed.

Lemma well_pooled_delete (i : nat) (p : gmap nat Goroutine) :
  (forall j g', p !! j = Some g' -> is_receiver g' = negb (Nat.eqb j scanner_id)) ->
  forall j g', delete i p !! j = Some g' ->
               is_receiver g' = negb (Nat.eqb j scanner_id).
Proof.
  intros Hp j g' Hj. rewrite lookup_delete in Hj.
  destruct (decide (i = j)); [discriminate | exact (Hp j g' Hj)].
Qed.

(** The count is kept by every step. *)
Lemma step_counts_rows (M0 : Z) (n : nat) (c c' : Config) :
  step path client c c' -> counts_rows M0 n c -> counts_rows M0 n c'.
Proof.
  intros [i Hstep] (Hwp & Hle & HM). unfold goroutine_step in Hstep.
  destruct (pool c !! i) as [g |] eqn:Hi; [| discriminate].
  destruct g as [[| row rows] | output [| p sending] ret rows | output | output p].
  - (* the scanner at the end of the rows *)
    assert (i = scanner_id) as -> by (eapply scanner_at_0; eauto).
    injection Hstep as <-. unfold counts_rows, well_pooled, rows_left in *.
    cbn [pool task]. rewrite Hi in Hle, HM. rewrite lookup_delete_eq.
    split; [apply well_pooled_delete; exact Hwp |].
    split; [lia | exact HM].
  - (* the scanner at a row *)
    assert (i = scanner_id) as -> by (eapply scanner_at_0; eauto).
    destruct (Map client (Key row) (Value row)) as [sending ret].
    injection Hstep as <-. unfold counts_rows, well_pooled, rows_left in *.
    cbn [pool task]. rewrite Hi in Hle, HM.
    rewrite lookup_insert_ne by (unfold receiver_id, scanner_id; lia).
    rewrite lookup_insert_eq.
    split; [| split; [exact Hle | exact HM]].
    apply well_pooled_insert; [| reflexivity].
    apply well_pooled_insert; [exact Hwp | reflexivity].
  - (* Map returns *)
    assert (i = scanner_id) as -> by (eapply scanner_at_0; eauto).
    injection Hstep as <-. unfold counts_rows, well_pooled, rows_left in *.
    cbn [pool task]. rewrite Hi in Hle, HM. rewrite lookup_insert_eq.
    split; [apply well_pooled_insert; [exact Hwp | reflexivity] |].
    split; [lia |].
    unfold incr_M. cbn [MapTask.M]. rewrite HM, wrap_int_add_l.
    f_equal. lia.
  - (* Map sends *)
    assert (i = scanner_id) as -> by (eapply scanner_at_0; eauto).
    destruct (pool c !! receiver_id output) as [[| | |] |]; try discriminate.
    injection Hstep as <-. unfold counts_rows, well_pooled, rows_left in *.
    cbn [pool task]. rewrite Hi in Hle, HM.
    rewrite lookup_insert_ne by (unfold receiver_id, scanner_id; lia).
    rewrite lookup_insert_eq.
    split; [| split; [exact Hle | exact HM]].
    apply well_pooled_insert; [| reflexivity].
    apply well_pooled_insert; [exact Hwp | reflexivity].
  - (* a receiver at the end of its channel *)
    assert (i <> scanner_id) as Hne by (eapply receiver_not_at_0; eauto).
    destruct (decide (output ∈ closed c)); [| discriminate].
    injection Hstep as <-. unfold counts_rows, well_pooled, rows_left in *.
    cbn [pool task]. rewrite lookup_delete_ne by exact Hne.
    split; [apply well_pooled_delete; exact Hwp |].
    split; [exact Hle | exact HM].
  - (* a receiver inserts *)
    assert (i <> scanner_id) as Hne by (eapply receiver_not_at_0; eauto).
    destruct (InsertPair (task c) path p (world c)) as [[e w] | |];
      cbn [obind] in Hstep; try discriminate.
    injection Hstep as <-. unfold counts_rows, well_pooled, rows_left in *.
    cbn [pool task]. rewrite lookup_insert_ne by exact Hne.
    split; [| split; [exact Hle | exact HM]].
    apply well_pooled_insert; [exact Hwp |].
    destruct (Nat.eqb_spec i scanner_id); [contradiction | reflexivity].
Qed.

Lemma steps_counts_rows (M0 : Z) (n : nat) (c c' : Config) :
  rtc (step path client) c c' -> counts_rows M0 n c -> counts_rows M0 n c'.
Proof.
  induction 1 as [c | c c1 c' Hstep _ IH]; intros Hc; [exact Hc |].
  apply IH. eapply step_counts_rows; eauto.
Qed.

(** In every run of the goroutines of [Process] to their end, [task.M]
    ends at its first value plus the number of rows of the shard,
    within the 64 bits of an [int]. *)
Lemma Process_counts_rows (t : MapTask.t) (w : World) (c c' : Config) :
  in_int (MapTask.M t) = true ->
  MapTask_Process_go t w = Done (Spawned c) ->
  rtc (step path client) c c' ->
  pool c' = ∅ ->
  MapTask.M (task c')
  = wrap_int (MapTask.M t
              + Z.of_nat (length (stored (world c)
                                         (mapInputFile (MapTask.N t))))).
Proof.
  intros HM Hgo Hsteps Hend.
  assert (Hc : counts_rows (MapTask.M t)
                 (length (stored (world c) (mapInputFile (MapTask.N t)))) c).
  { unfold MapTask_Process_go in Hgo.
    destruct (download _ _ w) as [e0 w0].
    unfold openDatabase in Hgo.
    destruct (files _ !! mapInputFile (MapTask.N t)) as [[rows |] |] eqn:Hfile;
      try discriminate.
    cbn [Query_pairs obind] in Hgo. rewrite Hfile in Hgo.
    injection Hgo as <-.
    unfold counts_rows, well_pooled, rows_left, stored. cbn [pool task world].
    rewrite Hfile, lookup_singleton_eq.
    split; [| split; [lia |]].
    - intros i g Hi. apply lookup_singleton_Some in Hi as [<- <-]. reflexivity.
    - rewrite Nat.sub_diag, Z.add_0_r, wrap_int_id by exact HM. reflexivity. }
  destruct (steps_counts_rows _ _ _ _ Hsteps Hc) as (_ & _ & HM').
  rewrite HM'. unfold rows_left. rewrite Hend, lookup_empty, Nat.sub_0_r.
  reflexivity.
Qed.

End RowCount.

Lemma one_row_go :
  MapTask_Process_go one_shard one_row = Done (Spawned one_row_spawned).
Proof. vm_compute. reflexivity. Qed.

Lemma one_row_to_the_end :
  run_schedule (H := slash_join) "tmp" word_count to_the_end one_row_spawned
  = Done (reached (run_schedule (H := slash_join) "tmp" word_count to_the_end
                                one_row_spawned)
                  one_row_spawned).
Proof. vm_compute. reflexivity. Qed.

(** C2, where the code leaves the claim: on a shard of one row
    [Process] returns [nil] while the goroutine it started has not yet
    looked at the row: no call of [Map] made, no bucket store written.
    The work is done only by the steps that follow the return. *)
Theorem MapTask_Process_returns_before_work :
  MapTask_Process (H := slash_join) "tmp" word_count one_shard one_row
                  None one_row_spawned /\
  pool one_row_spawned !! scanner_id = Some (Scanner [mkPair "doc" "a"]) /\
  calls (world one_row_spawned) = [] /\
  files (world one_row_spawned) !! "tmp/map_0_output_0.db" = None /\
  exists c',
    rtc (step (H := slash_join) "tmp" word_count) one_row_spawned c' /\
    pool c' = ∅ /\
    calls (world c') = [CallMap "doc" "a"] /\
    files (world c') !! "tmp/map_0_output_0.db"
    = Some (Database [mkPair "a" "1"]).
Proof.
  split; [apply (Process_returns_at_once "tmp" word_count _ _ _ one_row_go) |].
  split; [reflexivity |].
  split; [reflexivity |].
  split; [reflexivity |].
  eexists. split; [eapply run_schedule_steps; exact one_row_to_the_end |].
  repeat split; vm_compute; reflexivity.
Qed.

(** C3, where the code leaves the claim: on a shard of one row, in the
    run in which the goroutines finish before [Process] returns, the
    task constructed with [M = 1] carries [M = 2] at the return; [R] and
    [N] are as constructed. *)
Theorem MapTask_Process_increments_M :
  exists c,
    MapTask_Process (H := slash_join) "tmp" word_count one_shard one_row
                    None c /\
    pool c = ∅ /\
    MapTask.M one_shard = 1 /\
    MapTask.M (task c) = 2 /\
    MapTask.R (task c) = MapTask.R one_shard /\
    MapTask.N (task c) = MapTask.N one_shard.
Proof.
  exists (reached (run_schedule (H := slash_join) "tmp" word_count to_the_end
                                one_row_spawned)
                  one_row_spawned).
  split.
  - change (@None goerror)
      with (err (reached (run_schedule (H := slash_join) "tmp" word_count
                                       to_the_end one_row_spawned)
                         one_row_spawned)).
    eapply Process_returns_after_go; [exact one_row_go |].
    eapply run_schedule_steps. exact one_row_to_the_end.
  - repeat split; vm_compute; reflexivity.
Qed.

(** C4, where the code leaves the claim: nothing is served, so the
    fetch of the shard fails; an input file of an earlier run is there,
    and [Process] logs the failure, goes on to scan that file and
    returns [nil]. *)
Theorem MapTask_Process_ignores_failed_fetch :
  (download (makeURL (MapTask.SourceHost one_shard)
                     (mapSourceFile (MapTask.N one_shard)))
            (mapInputFile (MapTask.N one_shard)) stale_input).1
  = Some (ErrIO "GET http://h:8080/data/map_0_source.db") /\
  exists c,
    MapTask_Process (H := slash_join) "tmp" word_count one_shard stale_input
                    None c /\
    pool c !! scanner_id = Some (Scanner [mkPair "old" "x"]) /\
    logged (world c) = ["MapTask.Process: error in downloading path"].
Proof.
  split; [vm_compute; reflexivity |].
  assert (Hgo : MapTask_Process_go one_shard stale_input
                = Done (Spawned
                          (mkConfig
                             (log_Printf
                                "MapTask.Process: error in downloading path"
                                stale_input)
                             one_shard None
                             {[scanner_id := Scanner [mkPair "old" "x"]]}
                             ∅ 0%nat)))
    by (vm_compute; reflexivity).
  eexists. split.
  - apply (Process_returns_at_once "tmp" word_count _ _ _ Hgo).
  - split; reflexivity.
Qed.

(** ** main: no validation of the task counts *)

Lemma build_reduceTasks_Done (m r : Z) (indices : list Z)
      (reduceTasks : list ReduceTask.t) :
  0 <= m \/ indices = [] ->
  build_reduceTasks m r indices reduceTasks
  = Done (reduceTasks
          ++ map (fun i => ReduceTask.mk m r i (replicate (Z.to_nat m) ""))
                 indices)%list.
Proof.
  revert reduceTasks.
  induction indices as [| i indices IH]; intros reduceTasks Hm.
  - cbn. rewrite app_nil_r. reflexivity.
  - destruct Hm as [Hm | Hnil]; [| discriminate].
    cbn [build_reduceTasks map]. unfold make_strings.
    destruct (Z.ltb_spec m 0) as [Hneg | _]; [lia |].
    cbn [obind]. rewrite IH by (left; exact Hm).
    rewrite <- app_assoc. reflexivity.
Qed.

(** C5, as stated, fails: one row on one page gives [M = 1] and
    [R = 0]; the tasks are built without any error, the map task with
    [R = 0], and partitioning is attempted with it, ending in a panic. *)
Lemma main_tasks_counterexample :
  main_counts 1 1 = Done (1, 0) /\
  main_tasks 1 0 "h:8080" = Done ([MapTask.mk 1 0 0 "h:8080"], []) /\
  InsertPair (H := slash_join) (MapTask.mk 1 0 0 "h:8080") "tmp"
             (mkPair "a" "1") (mkWorld no_files no_files [] [])
  = Panic "runtime error: integer divide by zero".
Proof. repeat split. Qed.

(** C5, amended: no configuration is rejected when the tasks are
    constructed.  Whatever counts [M] and [R] [main] computes, the
    construction succeeds, every map task carrying [(M, R)] as computed,
    non-positive or not; a task whose [R] converts to the [uint32] zero
    is only stopped when a pair is partitioned, by the panic of the
    division in [InsertPair]. *)
Theorem main_tasks_no_validation `{FilePath} (number_of_rows page_count m r : Z)
        (the_address : string) :
  main_counts number_of_rows page_count = Done (m, r) ->
  main_tasks m r the_address
  = Done (map (fun i => MapTask.mk m r i the_address) (seqZ 0 m),
          map (fun i => ReduceTask.mk m r i (replicate (Z.to_nat m) ""))
              (seqZ 0 r)) /\
  (to_uint32 r = 0 ->
   forall t, t ∈ build_mapTasks m r the_address ->
   forall path pair w,
     InsertPair t path pair w = Panic "runtime error: integer divide by zero").
Proof.
  intros Hcounts. split.
  - unfold main_tasks.
    rewrite build_reduceTasks_Done; [reflexivity |].
    unfold main_counts in Hcounts.
    destruct (page_count =? 0); [discriminate |].
    injection Hcounts as Hm Hr.
    destruct (Z.le_gt_cases 0 m) as [Hpos | Hneg]; [left; exact Hpos | right].
    apply seqZ_nil. subst m r.
    apply Z.quot_le_upper_bound; lia.
  - intros Hzero t Ht path pair w.
    unfold build_mapTasks in Ht. apply list_elem_of_fmap in Ht as (i & -> & _).
    unfold InsertPair. cbn [MapTask.R MapTask.N].
    rewrite bucket_Panic by exact Hzero. reflexivity.
Qed.

Lemma main_tasks_no_validation_witness :
  main_tasks 1 0 "h:8080"
  = Done (map (fun i => MapTask.mk 1 0 i "h:8080") (seqZ 0 1),
          map (fun i => ReduceTask.mk 1 0 i (replicate (Z.to_nat 1) ""))
              (seqZ 0 0)) /\
  (to_uint32 0 = 0 ->
   forall t, t ∈ build_mapTasks 1 0 "h:8080" ->
   forall path pair w,
     InsertPair (H := slash_join) t path pair w
     = Panic "runtime error: integer divide by zero").
Proof.
  apply (main_tasks_no_validation (H := slash_join) 1 1 1 0 "h:8080").
  reflexivity.
Defined.

(** * Further properties *)

(** ** Strings *)

Lemma append_inv_head (p x y : string) : p ++ x = p ++ y -> x = y.
Proof.
  induction p as [| c p IH]; cbn; [trivial |].
  intros Heq. injection Heq as Heq. apply IH. exact Heq.
Qed.

(** Two strings free of [sep], each followed by [sep] and more, are
    equal when the wholes are, and so is what follows. *)
Lemma append_sep_inv (sep : ascii) (a a' s s' : string) :
  string_forall (fun c => negb (Ascii.eqb c sep)) a = true ->
  string_forall (fun c => negb (Ascii.eqb c sep)) a' = true ->
  a ++ String sep s = a' ++ String sep s' ->
  a = a' /\ s = s'.
Proof.
  revert a'. induction a as [| c a IH]; intros [| c' a'] Ha Ha' Heq; cbn in *.
  - injection Heq as ->. split; reflexivity.
  - injection Heq as <- _. rewrite Ascii.eqb_refl in Ha'. discriminate.
  - injection Heq as -> _. rewrite Ascii.eqb_refl in Ha. discriminate.
  - injection Heq as <- Heq.
    apply andb_prop in Ha as [_ Ha]. apply andb_prop in Ha' as [_ Ha'].
    destruct (IH a' Ha Ha' Heq) as [-> ->]. split; reflexivity.
Qed.

Lemma string_forall_impl (P Q : ascii -> bool) (s : string) :
  (forall c, P c = true -> Q c = true) ->
  string_forall P s = true -> string_forall Q s = true.
Proof.
  intros HPQ. induction s as [| c s IH]; cbn; [trivial |].
  intros Hs. apply andb_prop in Hs as [Hc Hs].
  rewrite (HPQ c Hc), (IH Hs). reflexivity.
Qed.

(** ** strconv.Itoa *)

Lemma string_of_uint_digits (d : Decimal.uint) :
  string_forall digit_or_minus (NilEmpty.string_of_uint d) = true.
Proof. induction d; cbn; try rewrite IHd; reflexivity. Qed.

Lemma NilZero_string_of_uint_digits (d : Decimal.uint) :
  string_forall digit_or_minus (NilZero.string_of_uint d) = true.
Proof.
  unfold NilZero.string_of_uint.
  destruct d; first [reflexivity | apply string_of_uint_digits].
Qed.

Lemma Itoa_digits (i : Z) : string_forall digit_or_minus (strconv.Itoa i) = true.
Proof.
  unfold strconv.Itoa.
  destruct (Z.to_int i) as [d | d]; cbn [NilZero.string_of_int string_forall].
  - apply NilZero_string_of_uint_digits.
  - rewrite NilZero_string_of_uint_digits. reflexivity.
Qed.

Lemma Itoa_free_of (sep : ascii) (i : Z) :
  digit_or_minus sep = false ->
  string_forall (fun c => negb (Ascii.eqb c sep)) (strconv.Itoa i) = true.
Proof.
  intros Hsep. apply (string_forall_impl digit_or_minus); [| apply Itoa_digits].
  intros c Hc. destruct (Ascii.eqb_spec c sep) as [-> | _]; [congruence | reflexivity].
Qed.

Lemma Itoa_inj (i j : Z) : strconv.Itoa i = strconv.Itoa j -> i = j.
Proof.
  unfold strconv.Itoa. intros Heq.
  assert (Hnn : forall z, Z.to_int z <> Decimal.Pos Decimal.Nil /\
                          Z.to_int z <> Decimal.Neg Decimal.Nil).
  { intros [| p | p]; cbn; split; try discriminate;
      intros [= Hp]; exact (Unsigned.to_uint_nonnil p Hp). }
  assert (Hint : Some (Z.to_int i) = Some (Z.to_int j)).
  { rewrite <- (NilZero.isi (Z.to_int i)) by apply Hnn.
    rewrite <- (NilZero.isi (Z.to_int j)) by apply Hnn.
    rewrite Heq. reflexivity. }
  injection Hint as Hint.
  rewrite <- (DecimalZ.of_to i), <- (DecimalZ.of_to j), Hint. reflexivity.
Qed.

(** ** File names *)

Lemma name_split (i j : Z) (s s' : string) :
  strconv.Itoa i ++ String "_" s = strconv.Itoa j ++ String "_" s' ->
  i = j /\ s = s'.
Proof.
  intros Heq.
  apply append_sep_inv in Heq as [Hi Hs];
    try (apply Itoa_free_of; reflexivity).
  split; [apply Itoa_inj; exact Hi | exact Hs].
Qed.

Lemma name_split_dot (i j : Z) (s s' : string) :
  strconv.Itoa i ++ String "." s = strconv.Itoa j ++ String "." s' ->
  i = j /\ s = s'.
Proof.
  intros Heq.
  apply append_sep_inv in Heq as [Hi Hs];
    try (apply Itoa_free_of; reflexivity).
  split; [apply Itoa_inj; exact Hi | exact Hs].
Qed.

Lemma mapOutputFile_eq_inv (m r m' r' : Z) :
  mapOutputFile m r = mapOutputFile m' r' -> m = m' /\ r = r'.
Proof.
  unfold mapOutputFile. intros Heq.
  apply append_inv_head in Heq.
  apply name_split in Heq as [-> Heq].
  apply (append_inv_head "output_") in Heq.
  apply name_split_dot in Heq as [-> _].
  split; reflexivity.
Qed.

(** The bucket file of map task [m] and bucket [r] is named by [(m, r)]
    alone: two names are equal exactly for the same task and the same
    bucket. *)
Theorem mapOutputFile_inj (m r m' r' : Z) :
  mapOutputFile m r = mapOutputFile m' r' <-> m = m' /\ r = r'.
Proof.
  split.
  - apply mapOutputFile_eq_inv.
  - intros [-> ->]. reflexivity.
Qed.

Ltac split_names :=
  simplify_eq;
  match goal with
  | H : @eq string _ _ |- _ =>
      apply name_split in H as [? H]; subst; try discriminate H
  end.

Lemma file_name_eq_inv (k k' i i' : Z) (f : string) :
  file_name k i = Some f -> file_name k' i' = Some f -> k = k' /\ i = i'.
Proof.
  unfold file_name, mapSource, mapInput, mapOutput, reduceInput, reduceOutput,
    reducePartial, reduceTemp.
  intros Hf Hf'.
  repeat match goal with
         | H : context [?a =? ?b] |- _ =>
             destruct (Z.eqb_spec a b); [subst a |]
         end;
    try discriminate; try lia;
    injection Hf as <-; injection Hf' as Hf';
    unfold mapSourceFile, mapInputFile, mapOutputFile, reduceInputFile,
      reduceOutputFile, reducePartialFile, reduceTempFile in Hf';
    split_names; split; reflexivity.
Qed.

Lemma file_name_known (k i : Z) : 0 <= k <= 6 -> is_Some (file_name k i).
Proof.
  intros Hk. unfold file_name, mapSource, mapInput, mapOutput, reduceInput,
    reduceOutput, reducePartial, reduceTemp.
  repeat match goal with
         | |- context [k =? ?c] =>
             destruct (Z.eqb_spec k c); [eexists; reflexivity |]
         end.
  lia.
Qed.

Lemma file_name_unknown (k i : Z) : k < 0 \/ 6 < k -> file_name k i = None.
Proof.
  intros Hk. unfold file_name, mapSource, mapInput, mapOutput, reduceInput,
    reduceOutput, reducePartial, reduceTemp.
  repeat match goal with
         | |- context [k =? ?c] => destruct (Z.eqb_spec k c); [lia |]
         end.
  reflexivity.
Qed.

(** The names [createPaths] gives to the files tell the kind of file
    and the index apart: for a kind among the seven, the name of
    [(kind, index)] is the name of no other kind and no other index. *)
Theorem file_name_inj (k k' i i' : Z) :
  0 <= k <= 6 -> file_name k i = file_name k' i' -> k = k' /\ i = i'.
Proof.
  intros Hk Heq. destruct (file_name_known k i Hk) as [f Hf].
  rewrite Hf in Heq. symmetry in Heq.
  exact (file_name_eq_inv k k' i i' f Hf Heq).
Qed.

Lemma file_name_inj_witness : mapOutput = mapOutput /\ 3 = 3.
Proof.
  apply (file_name_inj mapOutput mapOutput 3 3); [unfold mapOutput; lia |].
  reflexivity.
Defined.

(** ** createPaths *)

Section CreatePathsProperties.
Context `{FilePath}.

Lemma createPaths_case_name (k : Z) (tmp : string) (i : Z)
      (paths : list string) :
  createPaths_case k tmp i paths
  = (paths ++ match file_name k i with
              | Some f => [filepath_Join tmp f]
              | None => []
              end)%list.
Proof.
  unfold createPaths_case, file_name.
  repeat (destruct (k =? _); [reflexivity |]).
  rewrite app_nil_r. reflexivity.
Qed.

Lemma createPaths_loop_known (k : Z) (tmp : string) (n : nat) (i : Z)
      (paths : list string) :
  0 <= k <= 6 ->
  exists new,
    createPaths_loop n i k tmp paths = (paths ++ new)%list /\
    length new = n /\
    forall j, (j < n)%nat ->
      exists f, file_name k (i + Z.of_nat j) = Some f /\
                new !! j = Some (filepath_Join tmp f).
Proof.
  intros Hk. revert i paths. induction n as [| n IH]; intros i paths.
  - exists []. cbn. rewrite app_nil_r. repeat split. intros j Hj. lia.
  - cbn [createPaths_loop]. rewrite createPaths_case_name.
    destruct (file_name_known k i Hk) as [f Hf]. rewrite Hf.
    destruct (IH (i + 1) (paths ++ [filepath_Join tmp f])%list)
      as (new & Hrun & Hlen & Hnew).
    exists (filepath_Join tmp f :: new).
    split; [rewrite Hrun, <- app_assoc; reflexivity |].
    split; [cbn; lia |].
    intros [| j] Hj.
    + exists f. rewrite Z.add_0_r. split; [exact Hf | reflexivity].
    + destruct (Hnew j ltac:(lia)) as (f' & Hf' & Hj').
      exists f'. replace (i + Z.of_nat (S j)) with (i + 1 + Z.of_nat j) by lia.
      split; [exact Hf' | exact Hj'].
Qed.

Lemma createPaths_loop_unknown (k : Z) (tmp : string) (n : nat) (i : Z)
      (paths : list string) :
  k < 0 \/ 6 < k -> createPaths_loop n i k tmp paths = paths.
Proof.
  intros Hk. revert i paths. induction n as [| n IH]; intros i paths;
    [reflexivity |].
  cbn [createPaths_loop]. rewrite createPaths_case_name.
  rewrite (file_name_unknown k i Hk), app_nil_r. apply IH.
Qed.

(** For one of the seven kinds of file, [createPaths] returns [amount]
    paths (none when [amount <= 0]), the one at index [i] being the
    file name of the kind for [i], joined to [tmp]. *)
Theorem createPaths_known (amount k : Z) (tmp : string) :
  0 <= k <= 6 ->
  length (createPaths amount k tmp) = Z.to_nat amount /\
  forall i, 0 <= i < amount ->
    exists f, file_name k i = Some f /\
              createPaths amount k tmp !! Z.to_nat i
              = Some (filepath_Join tmp f).
Proof.
  intros Hk. unfold createPaths.
  destruct (createPaths_loop_known k tmp (Z.to_nat amount) 0 [] Hk)
    as (new & -> & Hlen & Hnew).
  cbn [app]. split; [exact Hlen |].
  intros i Hi. destruct (Hnew (Z.to_nat i) ltac:(lia)) as (f & Hf & Hj).
  rewrite Z2Nat.id, Z.add_0_l in Hf by lia. eauto.
Qed.

(** For any other [typeOfFile] the [switch] has no case: the loop runs
    and the result is empty, whatever [amount] is. *)
Theorem createPaths_unknown (amount k : Z) (tmp : string) :
  k < 0 \/ 6 < k -> createPaths amount k tmp = [].
Proof. intros Hk. apply createPaths_loop_unknown. exact Hk. Qed.


End CreatePathsProperties.


Lemma createPaths_known_witness :
  length (@createPaths slash_join 3 mapSource "tmp") = 3%nat /\
  forall i, 0 <= i < 3 ->
    exists f, file_name mapSource i = Some f /\
              @createPaths slash_join 3 mapSource "tmp" !! Z.to_nat i
              = Some (@filepath_Join slash_join "tmp" f).
Proof.
  apply (@createPaths_known slash_join 3 mapSource "tmp").
  unfold mapSource. lia.
Defined.

Lemma createPaths_unknown_witness :
  @createPaths slash_join 3 7 "tmp" = [].
Proof. apply (@createPaths_unknown slash_join 3 7 "tmp"). right. lia. Defined.


(** ** strconv.Atoi after strconv.Itoa *)

Lemma digits_of_uint_acc (d : Decimal.uint) (acc : positive) :
  strconv.digits (NilEmpty.string_of_uint d) (Z.pos acc)
  = Some (Z.pos (Pos.of_uint_acc d acc)).
Proof.
  revert acc. induction d as [| d IH | d IH | d IH | d IH | d IH | d IH
                              | d IH | d IH | d IH | d IH]; intros acc;
    [reflexivity | ..];
    cbn [NilEmpty.string_of_uint strconv.digits Pos.of_uint_acc];
    match goal with
    | |- context [strconv.digit_of ?c] =>
        let k := eval vm_compute in (strconv.digit_of c) in
        change (strconv.digit_of c) with k; cbv iota
    end;
    rewrite <- IH; f_equal; lia.
Qed.

Lemma digits_of_uint (d : Decimal.uint) :
  strconv.digits (NilEmpty.string_of_uint d) 0
  = Some (Z.of_N (Pos.of_uint d)).
Proof.
  induction d as [| d IH | d IH | d IH | d IH | d IH | d IH
                  | d IH | d IH | d IH | d IH];
    [reflexivity | exact IH | ..];
    cbn [NilEmpty.string_of_uint strconv.digits Pos.of_uint];
    match goal with
    | |- context [strconv.digit_of ?c] =>
        let k := eval vm_compute in (strconv.digit_of c) in
        change (strconv.digit_of c) with k; cbv iota
    end;
    cbn [Z.mul Z.add]; apply digits_of_uint_acc.
Qed.

Lemma string_of_uint_head (d : Decimal.uint) :
  d <> Decimal.Nil ->
  exists c rest,
    NilEmpty.string_of_uint d = String c rest /\
    Ascii.eqb c "-" = false /\ Ascii.eqb c "+" = false.
Proof.
  intros Hd. destruct d; [contradiction | ..];
    cbn [NilEmpty.string_of_uint]; eexists _, _; repeat split.
Qed.

Lemma Atoi_string_of_uint (p : positive) :
  strconv.Atoi (NilEmpty.string_of_uint (Pos.to_uint p))
  = (if in_int (Z.pos p) then (Z.pos p, None)
     else (int_max,
           Some (ErrRange "Atoi" (NilEmpty.string_of_uint (Pos.to_uint p))))).
Proof.
  pose proof (digits_of_uint (Pos.to_uint p)) as Hdigits.
  rewrite DecimalPos.Unsigned.of_to in Hdigits.
  destruct (string_of_uint_head (Pos.to_uint p)
              (Unsigned.to_uint_nonnil p)) as (c & rest & Hs & Hminus & Hplus).
  rewrite Hs in *. unfold strconv.Atoi. rewrite Hminus, Hplus.
  cbn [orb]. rewrite Hdigits. reflexivity.
Qed.

(** What [Itoa] writes for an [int], [Atoi] reads back. *)
Lemma Atoi_Itoa (i : Z) : in_int i = true -> strconv.Atoi (strconv.Itoa i) = (i, None).
Proof.
  intros Hi. unfold strconv.Itoa. destruct i as [| p | p]; [reflexivity | |].
  - cbn [Z.to_int NilZero.string_of_int]. unfold NilZero.string_of_uint.
    pose proof (Unsigned.to_uint_nonnil p) as Hnn.
    pose proof (Atoi_string_of_uint p) as Hp. rewrite Hi in Hp.
    destruct (Pos.to_uint p); [contradiction | ..]; exact Hp.
  - cbn [Z.to_int NilZero.string_of_int]. unfold NilZero.string_of_uint.
    pose proof (Unsigned.to_uint_nonnil p) as Hnn.
    pose proof (digits_of_uint (Pos.to_uint p)) as Hdigits.
    rewrite DecimalPos.Unsigned.of_to in Hdigits.
    destruct (string_of_uint_head (Pos.to_uint p) Hnn)
      as (c & rest & Hs & _ & _).
    assert (Hrun : strconv.Atoi
                     (String "-" (NilEmpty.string_of_uint (Pos.to_uint p)))
                   = (Z.neg p, None)).
    { unfold strconv.Atoi. cbn [Ascii.eqb Bool.eqb orb andb].
      rewrite Hs in *. rewrite Hdigits.
      change (- Z.of_N (N.pos p)) with (Z.neg p). rewrite Hi.
      reflexivity. }
    destruct (Pos.to_uint p); [contradiction | ..]; exact Hrun.
Qed.

(** ** More on the word-count Reduce *)

Lemma wrap_int_add_r x y : wrap_int (x + wrap_int y) = wrap_int (x + y).
Proof. rewrite Z.add_comm, wrap_int_add_l, Z.add_comm. reflexivity. Qed.

Lemma wrap_int_add_congr a b c :
  wrap_int b = wrap_int c -> wrap_int (wrap_int a + b) = wrap_int (a + c).
Proof.
  intros Hbc.
  rewrite wrap_int_add_l, <- (wrap_int_add_r a b), Hbc, wrap_int_add_r.
  reflexivity.
Qed.

Lemma sum_of_app (xs ys : list Z) : sum_of (xs ++ ys) = sum_of xs + sum_of ys.
Proof.
  unfold sum_of. induction xs as [| x xs IH]; cbn; [reflexivity |].
  rewrite IH. lia.
Qed.

Lemma sum_of_Permutation (xs ys : list Z) :
  Permutation xs ys -> sum_of xs = sum_of ys.
Proof.
  unfold sum_of. induction 1; cbn; lia.
Qed.

Lemma parsed_parses (values : list string) :
  all_parse values -> Forall2 parses values (parsed values).
Proof.
  unfold all_parse, parsed, parses.
  induction 1 as [| v values Hv _ IH]; cbn; constructor; [| exact IH].
  destruct (strconv.Atoi v) as [i e]. cbn in *. subst e. reflexivity.
Qed.

Lemma parse_or_not (values : list string) :
  all_parse values \/ Exists unparsable values.
Proof.
  unfold all_parse, unparsable.
  induction values as [| v values [IH | IH]].
  - left. constructor.
  - destruct (strconv.Atoi v).2 as [e |] eqn:Hv.
    + right. apply Exists_cons_hd. rewrite Hv. discriminate.
    + left. constructor; assumption.
  - right. apply Exists_cons_tl. exact IH.
Qed.

Lemma Reduce_all_parse (key : string) (values : list string) :
  all_parse values ->
  Client_Reduce key values
  = ([mkPair key (strconv.Itoa (wrap_int (sum_of (parsed values))))], None).
Proof.
  intros Hparse. unfold Client_Reduce.
  rewrite (Reduce_range_sum values (parsed values) 0
             (parsed_parses values Hparse) eq_refl).
  reflexivity.
Qed.

Lemma Reduce_unparsable (key : string) (values : list string) :
  Exists unparsable values -> (Client_Reduce key values).1 = [].
Proof.
  intros Hbad. unfold Client_Reduce.
  destruct (Reduce_range_error values 0 Hbad) as (c & e & ->). reflexivity.
Qed.

(** The values [Map] emits for one word, reduced, give the number of
    its occurrences: [n] values ["1"] reduce to the decimal [n], as long
    as [n] is an [int]. *)
Theorem Client_Reduce_counts (key : string) (n : nat) :
  Z.of_nat n <= int_max ->
  Client_Reduce key (replicate n "1")
  = ([mkPair key (strconv.Itoa (Z.of_nat n))], None).
Proof.
  intros Hn.
  assert (Hparse : all_parse (replicate n "1"))
    by (apply Forall_replicate; reflexivity).
  assert (Hsum : sum_of (parsed (replicate n "1")) = Z.of_nat n).
  { clear. induction n as [| n IH]; [reflexivity |].
    cbn [replicate parsed map sum_of foldr] in *.
    unfold sum_of, parsed in IH. rewrite IH.
    change (strconv.Atoi "1").1 with 1. lia. }
  rewrite (Reduce_all_parse key _ Hparse), Hsum, wrap_int_id; [reflexivity |].
  unfold in_int, int_min, int_max in *.
  apply andb_true_intro. split; apply Z.leb_le; lia.
Qed.

Lemma Client_Reduce_counts_witness :
  Client_Reduce "the" (replicate 2 "1") = ([mkPair "the" (strconv.Itoa 2)], None).
Proof.
  apply (Client_Reduce_counts "the" 2). unfold int_max. lia.
Defined.




(** The pairs [Reduce] emits do not depend on the order of the values:
    a permutation of the values gives the same pairs, and, when every
    value parses, the same result. *)
Theorem Client_Reduce_Permutation (key : string) (values values' : list string) :
  Permutation values values' ->
  (Client_Reduce key values).1 = (Client_Reduce key values').1 /\
  (all_parse values -> Client_Reduce key values = Client_Reduce key values').
Proof.
  intros Hperm.
  assert (Hall : all_parse values ->
                 Client_Reduce key values = Client_Reduce key values').
  { intros Hparse.
    assert (Hparse' : all_parse values')
      by (unfold all_parse in *; rewrite <- Hperm; exact Hparse).
    rewrite (Reduce_all_parse key values Hparse),
      (Reduce_all_parse key values' Hparse').
    rewrite (sum_of_Permutation (parsed values) (parsed values'));
      [reflexivity |].
    unfold parsed. apply Permutation_map. exact Hperm. }
  split; [| exact Hall].
  destruct (parse_or_not values) as [Hparse | Hbad].
  - rewrite (Hall Hparse). reflexivity.
  - rewrite (Reduce_unparsable key values Hbad).
    rewrite (Reduce_unparsable key values'); [reflexivity |].
    rewrite <- Hperm. exact Hbad.
Qed.

Lemma Client_Reduce_Permutation_witness :
  (Client_Reduce "the" ["1"; "2"; "3"]).1
  = (Client_Reduce "the" ["3"; "1"; "2"]).1 /\
  (all_parse ["1"; "2"; "3"] ->
   Client_Reduce "the" ["1"; "2"; "3"] = Client_Reduce "the" ["3"; "1"; "2"]).
Proof.
  apply (Client_Reduce_Permutation "the" ["1"; "2"; "3"] ["3"; "1"; "2"]).
  symmetry. apply (Permutation_cons_append ["1"; "2"] "3").
Defined.

(** The decimal string [Reduce] writes for a count is one [Atoi] reads
    back as the same count. *)
Theorem Client_Reduce_value_parses (key : string) (values : list string) :
  all_parse values ->
  exists count,
    Client_Reduce key values = ([mkPair key (strconv.Itoa count)], None) /\
    strconv.Atoi (strconv.Itoa count) = (count, None).
Proof.
  intros Hparse. eexists. split; [apply Reduce_all_parse; exact Hparse |].
  apply Atoi_Itoa, wrap_int_range.
Qed.

Lemma Client_Reduce_value_parses_witness :
  exists count,
    Client_Reduce "the" ["-4"; "+9"]
    = ([mkPair "the" (strconv.Itoa count)], None) /\
    strconv.Atoi (strconv.Itoa count) = (count, None).
Proof.
  apply (Client_Reduce_value_parses "the" ["-4"; "+9"]).
  repeat constructor.
Defined.

Lemma partials_parse (key : string) (groups : list (list string)) :
  Forall all_parse groups ->
  all_parse (partials key groups) /\
  wrap_int (sum_of (parsed (partials key groups)))
  = wrap_int (sum_of (parsed (concat groups))).
Proof.
  unfold partials.
  induction 1 as [| g groups Hg _ [IHparse IHsum]]; [split; [constructor | reflexivity] |].
  cbn [map concat]. rewrite (Reduce_all_parse key g Hg). cbn [fst map app Value].
  pose proof (Atoi_Itoa (wrap_int (sum_of (parsed g))) (wrap_int_range _))
    as Hback.
  split.
  - constructor; [rewrite Hback; reflexivity | exact IHparse].
  - unfold parsed in *. cbn [map]. rewrite Hback. cbn [fst].
    rewrite map_app, sum_of_app.
    change (sum_of (?x :: ?l)) with (x + sum_of l).
    apply wrap_int_add_congr. exact IHsum.
Qed.

(** Reducing in two rounds gives what reducing at once gives: when
    every value parses, the values [Reduce] emits for the groups of a
    key reduce to the same pair as all the values of the groups taken
    together. *)
Theorem Client_Reduce_partials (key : string) (groups : list (list string)) :
  Forall all_parse groups ->
  Client_Reduce key (partials key groups) = Client_Reduce key (concat groups).
Proof.
  intros Hgroups.
  destruct (partials_parse key groups Hgroups) as [Hparse Hsum].
  assert (Hall : all_parse (concat groups)).
  { unfold all_parse in *. apply Forall_concat. exact Hgroups. }
  rewrite (Reduce_all_parse key _ Hparse), (Reduce_all_parse key _ Hall), Hsum.
  reflexivity.
Qed.

Lemma Client_Reduce_partials_witness :
  Client_Reduce "the" (partials "the" [["1"; "1"]; ["1"]])
  = Client_Reduce "the" (concat [["1"; "1"]; ["1"]]).
Proof.
  apply (Client_Reduce_partials "the" [["1"; "1"]; ["1"]]).
  repeat constructor.
Defined.

(** ** More on the word-count Map *)

Section ClientMapMore.
Context `{UnicodeTables}.

(** [Map] emits at most one pair per field of [value], and every pair
    it emits has a key that is not empty and the value ["1"]. *)
Theorem Client_Map_pairs_wellformed (key value : string) :
  Forall (fun p => Key p <> "" /\ Value p = "1") (Client_Map key value).1 /\
  (length (Client_Map key value).1 <= length (strings.Fields value))%nat.
Proof.
  unfold Client_Map. cbn [fst]. rewrite Map_range_pairs. cbn [app].
  generalize (strings.Fields value). intros lst.
  induction lst as [| elt lst [IHall IHlen]]; [split; [constructor | reflexivity] |].
  cbn [map List.filter].
  destruct (nonempty (normalize elt)) eqn:Hword; cbn [map length].
  - split; [| lia]. constructor; [| exact IHall]. cbn. split; [| reflexivity].
    intros Hempty. rewrite Hempty in Hword. discriminate.
  - split; [exact IHall | lia].
Qed.

End ClientMapMore.

(** ** getDatabase *)

(** [getDatabase] makes an empty store where there is no file and opens
    the store that is there without changing it; a file that is not a
    store is an error, the world left as it was.  Every other file is
    untouched. *)
Theorem getDatabase_keeps (path : string) (w : World) :
  match getDatabase path w with
  | (db, None, w') =>
      db = Some path /\
      files w' !! path = Some (Database (stored w path)) /\
      (forall p, p <> path -> files w' !! p = files w !! p) /\
      getDatabase path w' = (db, None, w')
  | (db, Some _, w') =>
      db = None /\ w' = w /\ files w !! path = Some NotADatabase
  end.
Proof.
  unfold getDatabase, stored.
  destruct (files w !! path) as [[ps |] |] eqn:Hpath.
  - unfold openDatabase. rewrite Hpath. repeat split; try assumption.
    rewrite Hpath. reflexivity.
  - unfold openDatabase. rewrite Hpath. repeat split.
  - cbn. rewrite lookup_insert_eq. repeat split.
    + intros p Hp. apply lookup_insert_ne. congruence.
    + unfold openDatabase. cbn. rewrite lookup_insert_eq. reflexivity.
Qed.

(** ** More on InsertPair *)

Section InsertPairMore.
Context `{FilePath}.

Lemma InsertPair_inv (t : MapTask.t) (path : string) (pair : Pair)
        (w : World) (e : error) (w' : World) :
  InsertPair t path pair w = Done (e, w') ->
  e = None /\
  to_uint32 (MapTask.R t) <> 0 /\
  files w' !! store_of t path pair
  = Some (Database (stored w (store_of t path pair) ++ [pair])%list) /\
  (forall p, p <> store_of t path pair -> files w' !! p = files w !! p) /\
  served w' = served w /\ logged w' = logged w /\ calls w' = calls w.
Proof.
  unfold InsertPair, bucket, store_of, stored.
  destruct (Z.eqb_spec (to_uint32 (MapTask.R t)) 0) as [| Hnz];
    cbn [obind]; [discriminate |].
  set (store := filepath_Join path _).
  unfold getDatabase.
  destruct (files w !! store) as [[ps |] |] eqn:Hstore; cbn.
  - unfold openDatabase. rewrite Hstore. cbn. rewrite Hstore. cbn.
    intros [= <- <-]. cbn. repeat split; try assumption.
    + apply lookup_insert_eq.
    + intros p Hp. apply lookup_insert_ne. congruence.
  - unfold openDatabase. rewrite Hstore. cbn. discriminate.
  - rewrite lookup_insert_eq. cbn.
    intros [= <- <-]. cbn. repeat split; try assumption.
    + rewrite lookup_insert_eq. reflexivity.
    + intros p Hp. rewrite !lookup_insert_ne by congruence. reflexivity.
Qed.

Lemma InsertPair_Done (t : MapTask.t) (path : string) (pair : Pair)
      (w : World) :
  to_uint32 (MapTask.R t) <> 0 ->
  files w !! store_of t path pair <> Some NotADatabase ->
  exists w',
    InsertPair t path pair w = Done (None, w') /\
    files w'
    = <[store_of t path pair :=
          Database (stored w (store_of t path pair) ++ [pair])%list]> (files w).
Proof.
  intros Hnz Hstore. unfold InsertPair, store_of, stored in *.
  rewrite bucket_Done by exact Hnz. cbn [obind].
  set (store := filepath_Join path _) in *.
  unfold getDatabase.
  destruct (files w !! store) as [[ps |] |] eqn:Hfile; [| contradiction |].
  - unfold openDatabase. rewrite Hfile. cbn. rewrite Hfile. cbn.
    eexists. split; reflexivity.
  - cbn. rewrite lookup_insert_eq. cbn.
    eexists. split; [reflexivity |]. cbn. apply insert_insert_eq.
Qed.

(** When [InsertPair] returns, the error it returns is [nil] (a store
    that cannot be opened or written ends the process instead), and the
    world is the one before with the pair appended to the bucket store of
    its key: no other file, nothing served, no log line and no call has
    changed. *)
Theorem InsertPair_returns_nil (t : MapTask.t) (path : string) (pair : Pair)
        (w : World) (e : error) (w' : World) :
  InsertPair t path pair w = Done (e, w') ->
  e = None /\
  to_uint32 (MapTask.R t) <> 0 /\
  files w !! store_of t path pair <> Some NotADatabase /\
  w' = set_files
         (insert (store_of t path pair)
                 (Database (stored w (store_of t path pair) ++ [pair])%list))
         w.
Proof.
  intros Hins.
  pose proof (InsertPair_inv _ _ _ _ _ _ Hins) as (He & Hnz & _).
  split; [exact He |]. split; [exact Hnz |].
  assert (Hkind : files w !! store_of t path pair <> Some NotADatabase).
  { intros Hkind. unfold InsertPair in Hins.
    rewrite bucket_Done in Hins by exact Hnz. cbn [obind] in Hins.
    unfold store_of in Hkind. unfold getDatabase, openDatabase in Hins.
    rewrite Hkind in Hins. cbn in Hins. discriminate. }
  split; [exact Hkind |].
  destruct (InsertPair_Done t path pair w Hnz Hkind) as (w1 & Hrun & Hfiles).
  rewrite Hrun in Hins. injection Hins as _ <-.
  pose proof (InsertPair_inv _ _ _ _ _ _ Hrun) as (_ & _ & _ & _ & Hs & Hl & Hc).
  destruct w1 as [fs sv lg cs]. cbn in *. subst. reflexivity.
Qed.

Lemma insert_all_stored (t : MapTask.t) (path : string)
        (pairs : list Pair) (w : World) :
  to_uint32 (MapTask.R t) <> 0 ->
  (forall p, p ∈ pairs -> files w !! store_of t path p <> Some NotADatabase) ->
  exists w',
    insert_all t path pairs w = Done w' /\
    forall s,
      stored w' s
      = (stored w s
         ++ List.filter (fun p => String.eqb (store_of t path p) s) pairs)%list.
Proof.
  intros Hnz. revert w.
  induction pairs as [| pair pairs IH]; intros w Hfiles.
  - exists w. split; [reflexivity |]. intros s. cbn. rewrite app_nil_r.
    reflexivity.
  - destruct (InsertPair_Done t path pair w Hnz) as (w1 & Hrun & Hw1).
    { apply Hfiles. apply list_elem_of_here. }
    destruct (IH w1) as (w' & Hall & Hstored).
    { intros p Hp. rewrite Hw1.
      destruct (String.eqb_spec (store_of t path pair) (store_of t path p))
        as [<- | Hne].
      - rewrite lookup_insert_eq. discriminate.
      - rewrite lookup_insert_ne by exact Hne.
        apply Hfiles. apply list_elem_of_further. exact Hp. }
    exists w'. split; [cbn [insert_all]; rewrite Hrun; exact Hall |].
    intros s. rewrite Hstored. cbn [List.filter].
    unfold stored at 1. rewrite Hw1.
    destruct (String.eqb_spec (store_of t path pair) s) as [<- | Hne].
    + rewrite lookup_insert_eq, <- app_assoc. reflexivity.
    + rewrite lookup_insert_ne by exact Hne. reflexivity.
Qed.

Lemma insert_all_frame (t : MapTask.t) (path : string) (pairs : list Pair)
      (w w' : World) :
  insert_all t path pairs w = Done w' ->
  served w' = served w /\ logged w' = logged w /\ calls w' = calls w /\
  forall s, (forall p, p ∈ pairs -> store_of t path p <> s) ->
            files w' !! s = files w !! s.
Proof.
  revert w. induction pairs as [| p pairs IH]; intros w Hall.
  - cbn in Hall. injection Hall as <-. repeat split.
  - cbn [insert_all] in Hall.
    destruct (InsertPair t path p w) as [[e w1] | |] eqn:Hins;
      cbn [obind] in Hall; try discriminate.
    apply InsertPair_inv in Hins as (_ & _ & _ & Hother & Hs & Hl & Hc).
    destruct (IH w1 Hall) as (Hs' & Hl' & Hc' & Hother').
    rewrite Hs', Hl', Hc'. repeat split; try assumption.
    intros s Hnot. rewrite Hother'.
    + apply Hother. intros Heq. apply (Hnot p); [apply list_elem_of_here |].
      symmetry. exact Heq.
    + intros p' Hp'. apply Hnot. apply list_elem_of_further. exact Hp'.
Qed.

(** Pairs inserted one after the other are sorted into the bucket
    stores: when [R] does not convert to zero and no bucket file of the
    pairs is a file of another kind, every insertion succeeds, and in
    the end each store holds what it held followed by the pairs of its
    bucket, in the order of insertion; the files that are no bucket of
    these pairs, what is served, the log and the calls are as before. *)
Theorem insert_all_partitions (t : MapTask.t) (path : string)
        (pairs : list Pair) (w : World) :
  to_uint32 (MapTask.R t) <> 0 ->
  (forall p, p ∈ pairs -> files w !! store_of t path p <> Some NotADatabase) ->
  exists w',
    insert_all t path pairs w = Done w' /\
    (forall s,
        stored w' s
        = (stored w s
           ++ List.filter (fun p => String.eqb (store_of t path p) s) pairs)%list)
    /\
    (forall s, (forall p, p ∈ pairs -> store_of t path p <> s) ->
               files w' !! s = files w !! s) /\
    served w' = served w /\ logged w' = logged w /\ calls w' = calls w.
Proof.
  intros Hnz Hfiles.
  destruct (insert_all_stored t path pairs w Hnz Hfiles) as (w' & Hall & Hstored).
  destruct (insert_all_frame t path pairs w w' Hall) as (Hs & Hl & Hc & Hother).
  exists w'. repeat split; assumption.
Qed.


End InsertPairMore.

Lemma InsertPair_returns_nil_witness :
  @None goerror = None /\
  to_uint32 4 <> 0 /\
  no_files !! "tmp/map_0_output_2.db" <> Some NotADatabase /\
  set_files (insert "tmp/map_0_output_2.db" (Database [mkPair "a" "1"]))
            (mkWorld no_files no_files [] [])
  = set_files
      (insert "tmp/map_0_output_2.db"
              (Database (stored (mkWorld no_files no_files [] [])
                                "tmp/map_0_output_2.db"
                         ++ [mkPair "a" "1"])%list))
      (mkWorld no_files no_files [] []).
Proof.
  apply (@InsertPair_returns_nil slash_join (MapTask.mk 1 4 0 "h:8080") "tmp"
           (mkPair "a" "1") (mkWorld no_files no_files [] [])).
  vm_compute. reflexivity.
Defined.

Lemma insert_all_partitions_witness :
  exists w',
    @insert_all slash_join (MapTask.mk 1 4 0 "h:8080") "tmp"
                [mkPair "a" "1"; mkPair "b" "1"; mkPair "a" "1"]
                (mkWorld no_files no_files [] [])
    = Done w' /\
    (forall s,
        stored w' s
        = (stored (mkWorld no_files no_files [] []) s
           ++ List.filter
                (fun p => String.eqb
                            (@store_of slash_join (MapTask.mk 1 4 0 "h:8080")
                                       "tmp" p) s)
                [mkPair "a" "1"; mkPair "b" "1"; mkPair "a" "1"])%list) /\
    (forall s,
        (forall p, p ∈ [mkPair "a" "1"; mkPair "b" "1"; mkPair "a" "1"] ->
                   @store_of slash_join (MapTask.mk 1 4 0 "h:8080") "tmp" p
                   <> s) ->
        files w' !! s = no_files !! s) /\
    served w' = no_files /\ logged w' = [] /\ calls w' = [].
Proof.
  apply (@insert_all_partitions slash_join (MapTask.mk 1 4 0 "h:8080") "tmp"
           [mkPair "a" "1"; mkPair "b" "1"; mkPair "a" "1"]
           (mkWorld no_files no_files [] [])).
  - vm_compute. discriminate.
  - intros p _. cbn [files]. unfold no_files. rewrite lookup_empty.
    discriminate.
Defined.


(** ** More on MapTask.Process *)

Section MapTaskProcessMore.
Context `{FilePath}.
Variable path : string.
Variable client : Interface.

(** When the local input file cannot be opened as a store, whether the
    fetch failed or delivered something else, [Process] returns an
    error and that is all: no goroutine is started, no call is made to
    the client, no file is written after the fetch. *)
Theorem Process_open_failure (t : MapTask.t) (w : World) (e : error)
        (c : Config) :
  let fetched :=
    (download (makeURL (MapTask.SourceHost t) (mapSourceFile (MapTask.N t)))
              (mapInputFile (MapTask.N t)) w).2 in
  (forall rows,
      files fetched !! mapInputFile (MapTask.N t) <> Some (Database rows)) ->
  MapTask_Process path client t w e c ->
  is_Some e /\ pool c = ∅ /\ task c = t /\
  calls (world c) = calls w /\ files (world c) = files fetched.
Proof.
  intros fetched Hinput Hreturn.
  assert (Hgo : exists e0,
             MapTask_Process_go t w
             = Done (Returned (Some e0)
                       (log_Printf "error in op"
                          (log_error
                             "MapTask.Process: error in downloading path"
                             (download
                                (makeURL (MapTask.SourceHost t)
                                         (mapSourceFile (MapTask.N t)))
                                (mapInputFile (MapTask.N t)) w).1
                             fetched)))).
  { unfold MapTask_Process_go. subst fetched.
    destruct (download _ _ w) as [e0 w0]. cbn [fst snd] in *.
    unfold openDatabase.
    assert (Hlog : files (log_error
                            "MapTask.Process: error in downloading path" e0 w0)
                   = files w0) by (destruct e0; reflexivity).
    rewrite Hlog.
    destruct (files w0 !! mapInputFile (MapTask.N t)) as [[rows |] |] eqn:Hfile;
      [exfalso; exact (Hinput rows eq_refl) | eexists; reflexivity ..]. }
  destruct Hgo as [e0 Hgo].
  assert (Hcalls : calls fetched = calls w)
    by (subst fetched; apply download_calls).
  inversion Hreturn as [e1 w1 Hearly | c0 c1 Hspawn _]; subst.
  - rewrite Hgo in Hearly. injection Hearly as <- <-. cbn.
    repeat split; try reflexivity; [eexists; reflexivity | |].
    + rewrite <- Hcalls. destruct (download _ _ w).1; reflexivity.
    + destruct (download _ _ w).1; reflexivity.
  - rewrite Hgo in Hspawn. discriminate.
Qed.

(** The count of calls is kept by every step. *)
Lemma step_scans_rows (calls0 : list Call) (rows : list Pair) (c c' : Config) :
  step path client c c' -> scans_rows calls0 rows c -> scans_rows calls0 rows c'.
Proof.
  intros [i Hstep] (Hwp & Hcalls). unfold goroutine_step in Hstep.
  destruct (pool c !! i) as [g |] eqn:Hi; [| discriminate].
  destruct g as [[| row left] | output [| p sending] ret left | output | output p].
  - assert (i = scanner_id) as -> by (eapply scanner_at_0; eauto).
    injection Hstep as <-. unfold scans_rows, well_pooled, rows_to_scan in *.
    cbn [pool world]. rewrite Hi in Hcalls. rewrite lookup_delete_eq.
    split; [apply well_pooled_delete; exact Hwp | exact Hcalls].
  - assert (i = scanner_id) as -> by (eapply scanner_at_0; eauto).
    destruct (Map client (Key row) (Value row)) as [sending ret].
    injection Hstep as <-. unfold scans_rows, well_pooled, rows_to_scan in *.
    cbn [pool world record calls]. rewrite Hi in Hcalls.
    rewrite lookup_insert_ne by (unfold receiver_id, scanner_id; lia).
    rewrite lookup_insert_eq.
    split.
    + apply well_pooled_insert; [| reflexivity].
      apply well_pooled_insert; [exact Hwp | reflexivity].
    + rewrite <- Hcalls, <- app_assoc. reflexivity.
  - assert (i = scanner_id) as -> by (eapply scanner_at_0; eauto).
    injection Hstep as <-. unfold scans_rows, well_pooled, rows_to_scan in *.
    cbn [pool world]. rewrite Hi in Hcalls. rewrite lookup_insert_eq.
    split; [apply well_pooled_insert; [exact Hwp | reflexivity] |].
    rewrite <- Hcalls. destruct ret; reflexivity.
  - assert (i = scanner_id) as -> by (eapply scanner_at_0; eauto).
    destruct (pool c !! receiver_id output) as [[| | |] |]; try discriminate.
    injection Hstep as <-. unfold scans_rows, well_pooled, rows_to_scan in *.
    cbn [pool world]. rewrite Hi in Hcalls.
    rewrite lookup_insert_ne by (unfold receiver_id, scanner_id; lia).
    rewrite lookup_insert_eq.
    split; [| exact Hcalls].
    apply well_pooled_insert; [| reflexivity].
    apply well_pooled_insert; [exact Hwp | reflexivity].
  - assert (i <> scanner_id) as Hne by (eapply receiver_not_at_0; eauto).
    destruct (decide (output ∈ closed c)); [| discriminate].
    injection Hstep as <-. unfold scans_rows, well_pooled, rows_to_scan in *.
    cbn [pool world]. rewrite lookup_delete_ne by exact Hne.
    split; [apply well_pooled_delete; exact Hwp | exact Hcalls].
  - assert (i <> scanner_id) as Hne by (eapply receiver_not_at_0; eauto).
    destruct (InsertPair (task c) path p (world c)) as [[e w] | |] eqn:Hins;
      cbn [obind] in Hstep; try discriminate.
    apply InsertPair_inv in Hins as (-> & _ & _ & _ & _ & _ & Hsame).
    injection Hstep as <-. unfold scans_rows, well_pooled, rows_to_scan in *.
    cbn [pool world log_error]. rewrite lookup_insert_ne by exact Hne.
    rewrite Hsame. split; [| exact Hcalls].
    apply well_pooled_insert; [exact Hwp |].
    destruct (Nat.eqb_spec i scanner_id); [contradiction | reflexivity].
Qed.

Lemma steps_scans_rows (calls0 : list Call) (rows : list Pair)
      (c c' : Config) :
  rtc (step path client) c c' ->
  scans_rows calls0 rows c -> scans_rows calls0 rows c'.
Proof.
  induction 1 as [c | c c1 c' Hstep _ IH]; intros Hc; [exact Hc |].
  apply IH. eapply step_scans_rows; eauto.
Qed.

Lemma Process_go_scans_rows (t : MapTask.t) (w : World) (c : Config) :
  MapTask_Process_go t w = Done (Spawned c) ->
  scans_rows (calls w) (stored (world c) (mapInputFile (MapTask.N t))) c.
Proof.
  intros Hgo. unfold MapTask_Process_go in Hgo.
  pose proof (download_calls
                (makeURL (MapTask.SourceHost t) (mapSourceFile (MapTask.N t)))
                (mapInputFile (MapTask.N t)) w) as Hcalls.
  destruct (download _ _ w) as [e0 w0]. cbn [snd] in Hcalls.
  unfold openDatabase in Hgo.
  destruct (files _ !! mapInputFile (MapTask.N t)) as [[rows |] |] eqn:Hfile;
    try discriminate.
  cbn [Query_pairs obind] in Hgo. rewrite Hfile in Hgo.
  injection Hgo as <-.
  unfold scans_rows, well_pooled, rows_to_scan, stored. cbn [pool world].
  rewrite Hfile, lookup_singleton_eq. split.
  - intros i g Hi. apply lookup_singleton_Some in Hi as [<- <-]. reflexivity.
  - rewrite <- Hcalls. destruct e0; reflexivity.
Qed.

(** In every run of the goroutines of [Process], [Map] has been called
    for the rows scanned so far, once each and in row order, and for
    nothing else; when all goroutines have finished, [Map] has been
    called exactly once for every row of the input. *)
Theorem Process_calls_Map (t : MapTask.t) (w : World) (c c' : Config) :
  MapTask_Process_go t w = Done (Spawned c) ->
  rtc (step path client) c c' ->
  let rows := stored (world c) (mapInputFile (MapTask.N t)) in
  (calls (world c') ++ map call_of (rows_to_scan c'))%list
  = (calls w ++ map call_of rows)%list /\
  (pool c' = ∅ -> calls (world c') = (calls w ++ map call_of rows)%list).
Proof.
  intros Hgo Hsteps rows.
  pose proof (Process_go_scans_rows t w c Hgo) as Hc. fold rows in Hc.
  pose proof (steps_scans_rows _ _ _ _ Hsteps Hc) as Hc'.
  destruct Hc' as [_ Hcalls]. split; [exact Hcalls |].
  intros Hend. unfold rows_to_scan in Hcalls.
  rewrite Hend, lookup_empty in Hcalls. cbn in Hcalls.
  rewrite app_nil_r in Hcalls. exact Hcalls.
Qed.

End MapTaskProcessMore.

Lemma Process_open_failure_witness :
  is_Some (Some (ErrIO "unable to open database file")) /\
  pool (mkConfig
          (log_Printf "error in op"
             (log_Printf "MapTask.Process: error in downloading path"
                (mkWorld no_files no_files [] [])))
          one_shard (Some (ErrIO "unable to open database file")) ∅ ∅ 0%nat)
  = ∅.
Proof.
  pose proof (@Process_open_failure slash_join "tmp" word_count one_shard
                (mkWorld no_files no_files [] [])
                (Some (ErrIO "unable to open database file"))
                (mkConfig
                   (log_Printf "error in op"
                      (log_Printf "MapTask.Process: error in downloading path"
                         (mkWorld no_files no_files [] [])))
                   one_shard (Some (ErrIO "unable to open database file"))
                   ∅ ∅ 0%nat)) as Hthm.
  cbn zeta in Hthm.
  destruct Hthm as (He & Hpool & _).
  - intros rows. vm_compute. discriminate.
  - apply Process_returns_early. vm_compute. reflexivity.
  - split; [exact He | exact Hpool].
Defined.

Lemma steps_frame_witness :
  MapTask.R (task (reached (run_schedule (H := slash_join) "tmp" word_count
                                         to_the_end one_row_spawned)
                           one_row_spawned)) = 1 /\
  MapTask.N (task (reached (run_schedule (H := slash_join) "tmp" word_count
                                         to_the_end one_row_spawned)
                           one_row_spawned)) = 0 /\
  MapTask.SourceHost
    (task (reached (run_schedule (H := slash_join) "tmp" word_count
                                 to_the_end one_row_spawned)
                   one_row_spawned)) = "h:8080".
Proof.
  apply (@steps_frame slash_join "tmp" word_count one_row_spawned).
  eapply run_schedule_steps. exact one_row_to_the_end.
Defined.

Lemma Process_counts_rows_witness :
  MapTask.M (task (reached (run_schedule (H := slash_join) "tmp" word_count
                                         to_the_end one_row_spawned)
                           one_row_spawned))
  = wrap_int (1 + Z.of_nat (length [mkPair "doc" "a"])).
Proof.
  apply (@Process_counts_rows slash_join "tmp" word_count one_shard one_row
           one_row_spawned).
  - reflexivity.
  - exact one_row_go.
  - eapply run_schedule_steps. exact one_row_to_the_end.
  - vm_compute. reflexivity.
Defined.

Lemma Process_calls_Map_witness :
  (calls (world (reached (run_schedule (H := slash_join) "tmp" word_count
                                       to_the_end one_row_spawned)
                         one_row_spawned))
   ++ map call_of
        (rows_to_scan (reached (run_schedule (H := slash_join) "tmp"
                                             word_count to_the_end
                                             one_row_spawned)
                               one_row_spawned)))%list
  = ([] ++ map call_of [mkPair "doc" "a"])%list /\
  (pool (reached (run_schedule (H := slash_join) "tmp" word_count to_the_end
                               one_row_spawned)
                 one_row_spawned) = ∅ ->
   calls (world (reached (run_schedule (H := slash_join) "tmp" word_count
                                       to_the_end one_row_spawned)
                         one_row_spawned))
   = ([] ++ map call_of [mkPair "doc" "a"])%list).
Proof.
  apply (@Process_calls_Map slash_join "tmp" word_count one_shard one_row
           one_row_spawned).
  - exact one_row_go.
  - eapply run_schedule_steps. exact one_row_to_the_end.
Defined.

(** ** The goroutines of MapTask.Process never block for good *)

Section Progress.
Context `{FilePath}.
Variable path : string.
Variable client : Interface.

Lemma receiver_channel (c : Config) (i ch : nat) (g : Goroutine) :
  live c -> pool c !! i = Some g ->
  (g = Receiver ch \/ exists p, g = Inserter ch p) ->
  i <> scanner_id /\ i = receiver_id ch /\ (ch < chans c)%nat.
Proof.
  intros (Hwp & Hrecv & _) Hi Hg.
  assert (Hne : i <> scanner_id).
  { eapply receiver_not_at_0; eauto. destruct Hg as [-> | [p ->]]; reflexivity. }
  destruct (Hrecv i g Hne Hi) as (ch' & -> & Hlt & Hg').
  assert (ch' = ch) as ->
    by (destruct Hg as [-> | [p ->]], Hg' as [Hg' | [p' Hg']]; congruence).
  repeat split; assumption.
Qed.

Lemma step_live (c c' : Config) : step path client c c' -> live c -> live c'.
Proof.
  intros [i Hstep] Hlive.
  pose proof Hlive as (Hwp & Hrecv & Hclosed & Hmap & Hchans).
  unfold goroutine_step in Hstep.
  destruct (pool c !! i) as [g |] eqn:Hi; [| discriminate].
  destruct g as [[| row left] | output [| p sending] ret left | output | output p].
  - (* the scanner at the end of the rows *)
    assert (i = scanner_id) as -> by (eapply scanner_at_0; eauto).
    injection Hstep as <-. unfold live, well_pooled in *. cbn [pool closed chans].
    split; [apply well_pooled_delete; exact Hwp |].
    split; [intros j g Hj Hg; rewrite lookup_delete_ne in Hg by congruence;
            exact (Hrecv j g Hj Hg) |].
    split; [exact Hclosed |].
    split; [intros ch sending ret rows Hm; rewrite lookup_delete_eq in Hm;
            discriminate |].
    intros ch Hch. left. destruct (Hchans ch Hch) as [Hc | (s & r & l & Hm)];
      [exact Hc | congruence].
  - (* the scanner at a row *)
    assert (i = scanner_id) as -> by (eapply scanner_at_0; eauto).
    destruct (Map client (Key row) (Value row)) as [sending ret].
    injection Hstep as <-. unfold live, well_pooled in *. cbn [pool closed chans].
    split.
    { apply well_pooled_insert; [| reflexivity].
      apply well_pooled_insert; [exact Hwp | reflexivity]. }
    split.
    { intros j g Hj Hg. rewrite lookup_insert in Hg.
      destruct (decide (receiver_id (chans c) = j)) as [<- | _].
      - injection Hg as <-. exists (chans c).
        split; [reflexivity |]. split; [lia | left; reflexivity].
      - rewrite lookup_insert_ne in Hg by congruence.
        destruct (Hrecv j g Hj Hg) as (ch & -> & Hlt & Hg').
        exists ch. split; [reflexivity |]. split; [lia | exact Hg']. }
    split; [intros ch Hch; specialize (Hclosed ch Hch); lia |].
    split.
    { intros ch s r l Hm.
      rewrite lookup_insert_ne in Hm by (unfold receiver_id, scanner_id; lia).
      rewrite lookup_insert_eq in Hm. injection Hm as <- _ _ _.
      split; [intros Hc; specialize (Hclosed _ Hc); lia |].
      split; [lia |]. rewrite lookup_insert_eq. eexists; reflexivity. }
    intros ch Hch. destruct (decide (ch = chans c)) as [-> | Hne].
    + right. rewrite lookup_insert_ne by (unfold receiver_id, scanner_id; lia).
      rewrite lookup_insert_eq. eauto.
    + left. destruct (Hchans ch ltac:(lia)) as [Hc | (s & r & l & Hm)];
        [exact Hc | congruence].
  - (* Map returns *)
    assert (i = scanner_id) as -> by (eapply scanner_at_0; eauto).
    injection Hstep as <-. unfold live, well_pooled in *. cbn [pool closed chans].
    destruct (Hmap output [] ret left Hi) as (Hopen & Hlt & _).
    split; [apply well_pooled_insert; [exact Hwp | reflexivity] |].
    split; [intros j g Hj Hg; rewrite lookup_insert_ne in Hg by congruence;
            exact (Hrecv j g Hj Hg) |].
    split; [intros ch Hch; apply elem_of_union in Hch as [Hch | Hch];
            [apply elem_of_singleton in Hch as ->; exact Hlt
            | exact (Hclosed ch Hch)] |].
    split; [intros ch s r l Hm; rewrite lookup_insert_eq in Hm; discriminate |].
    intros ch Hch. left. apply elem_of_union.
    destruct (Hchans ch Hch) as [Hc | (s & r & l & Hm)]; [right; exact Hc |].
    rewrite Hi in Hm. injection Hm as <- _ _ _. left. apply elem_of_singleton.
    reflexivity.
  - (* Map sends *)
    assert (i = scanner_id) as -> by (eapply scanner_at_0; eauto).
    destruct (pool c !! receiver_id output) as [[| | |] |] eqn:Hr;
      try discriminate.
    injection Hstep as <-. unfold live, well_pooled in *. cbn [pool closed chans].
    destruct (Hmap output (p :: sending) ret left Hi) as (Hopen & Hlt & _).
    split.
    { apply well_pooled_insert; [| reflexivity].
      apply well_pooled_insert; [exact Hwp | reflexivity]. }
    split.
    { intros j g Hj Hg. rewrite lookup_insert in Hg.
      destruct (decide (receiver_id output = j)) as [<- | _].
      - injection Hg as <-. exists output.
        split; [reflexivity |]. split; [exact Hlt | right; eauto].
      - rewrite lookup_insert_ne in Hg by congruence.
        exact (Hrecv j g Hj Hg). }
    split; [exact Hclosed |].
    split.
    { intros ch s r l Hm.
      rewrite lookup_insert_ne in Hm by (unfold receiver_id, scanner_id; lia).
      rewrite lookup_insert_eq in Hm. injection Hm as <- _ _ _.
      split; [exact Hopen |]. split; [exact Hlt |].
      rewrite lookup_insert_eq. eexists; reflexivity. }
    intros ch Hch. destruct (Hchans ch Hch) as [Hc | (s & r & l & Hm)];
      [left; exact Hc | right].
    rewrite Hi in Hm. injection Hm as <- _ _ _.
    rewrite lookup_insert_ne by (unfold receiver_id, scanner_id; lia).
    rewrite lookup_insert_eq. eauto.
  - (* a receiver at the end of its channel *)
    destruct (receiver_channel c i output _ Hlive Hi ltac:(left; reflexivity))
      as (Hne & -> & Hlt).
    destruct (decide (output ∈ closed c)) as [Hc |]; [| discriminate].
    injection Hstep as <-. unfold live, well_pooled in *. cbn [pool closed chans].
    split; [apply well_pooled_delete; exact Hwp |].
    split.
    { intros j g Hj Hg. rewrite lookup_delete in Hg.
      destruct (decide (receiver_id output = j)); [discriminate |].
      exact (Hrecv j g Hj Hg). }
    split; [exact Hclosed |].
    split.
    { intros ch s r l Hm. rewrite lookup_delete_ne in Hm by exact Hne.
      destruct (Hmap ch s r l Hm) as (Hopen & Hlt' & Hsome).
      split; [exact Hopen |]. split; [exact Hlt' |].
      rewrite lookup_delete_ne; [exact Hsome |].
      intros Heq. injection Heq as ->. contradiction. }
    intros ch Hch. rewrite lookup_delete_ne by exact Hne. exact (Hchans ch Hch).
  - (* a receiver inserts *)
    destruct (receiver_channel c i output _ Hlive Hi ltac:(right; eauto))
      as (Hne & -> & Hlt).
    destruct (InsertPair (task c) path p (world c)) as [[e w] | |];
      cbn [obind] in Hstep; try discriminate.
    injection Hstep as <-. unfold live, well_pooled in *. cbn [pool closed chans].
    split.
    { apply well_pooled_insert; [exact Hwp | reflexivity]. }
    split.
    { intros j g Hj Hg. rewrite lookup_insert in Hg.
      destruct (decide (receiver_id output = j)) as [<- | _].
      - injection Hg as <-. exists output.
        split; [reflexivity |]. split; [exact Hlt | left; reflexivity].
      - exact (Hrecv j g Hj Hg). }
    split; [exact Hclosed |].
    split.
    { intros ch s r l Hm. rewrite lookup_insert_ne in Hm by exact Hne.
      destruct (Hmap ch s r l Hm) as (Hopen & Hlt' & Hsome).
      split; [exact Hopen |]. split; [exact Hlt' |].
      rewrite lookup_insert. destruct (decide (receiver_id output = receiver_id ch));
        [eexists; reflexivity | exact Hsome]. }
    intros ch Hch. rewrite lookup_insert_ne by exact Hne. exact (Hchans ch Hch).
Qed.

Lemma steps_live (c c' : Config) :
  rtc (step path client) c c' -> live c -> live c'.
Proof.
  induction 1 as [c | c c1 c' Hstep _ IH]; intros Hc; [exact Hc |].
  apply IH. eapply step_live; eauto.
Qed.

Lemma Process_go_live (t : MapTask.t) (w : World) (c : Config) :
  MapTask_Process_go t w = Done (Spawned c) -> live c.
Proof.
  intros Hgo. unfold MapTask_Process_go in Hgo.
  destruct (download _ _ w) as [e0 w0].
  destruct (openDatabase _ _) as [[db [e1 |]] w1]; [discriminate |].
  destruct (Query_pairs db w1) as [[rows [e2 |]] | |];
    cbn [obind] in Hgo; try discriminate.
  injection Hgo as <-. unfold live, well_pooled. cbn [pool closed chans].
  split; [intros i g Hi; apply lookup_singleton_Some in Hi as [<- <-];
          reflexivity |].
  split; [intros i g Hne Hi; apply lookup_singleton_Some in Hi as [<- _];
          contradiction |].
  split; [intros ch Hch; apply not_elem_of_empty in Hch; contradiction |].
  split; [intros ch s r l Hm; rewrite lookup_singleton_eq in Hm; discriminate |].
  intros ch Hch. lia.
Qed.

(** A configuration of that shape with a goroutine left has a
    goroutine that can take a step. *)
Lemma live_progress (c : Config) :
  live c -> pool c <> ∅ -> exists i o, goroutine_step path client i c = Some o.
Proof.
  intros Hlive Hpool.
  destruct (pool c !! scanner_id) as [g |] eqn:H0.
  - pose proof Hlive as (Hwp & Hrecv & Hclosed & Hmap & Hchans).
    destruct g as [[| row left] | output [| p sending] ret left | output | output p].
    + exists scanner_id. unfold goroutine_step. rewrite H0. eauto.
    + exists scanner_id. unfold goroutine_step. rewrite H0.
      destruct (Map client (Key row) (Value row)). eauto.
    + exists scanner_id. unfold goroutine_step. rewrite H0. eauto.
    + destruct (Hmap _ _ _ _ H0) as (_ & _ & [g Hg]).
      assert (Hne : receiver_id output <> scanner_id)
        by (unfold receiver_id, scanner_id; lia).
      destruct (Hrecv _ g Hne Hg) as (ch & Hch & _ & Hkind).
      assert (ch = output) as -> by (unfold receiver_id in Hch; lia).
      destruct Hkind as [-> | [p' ->]].
      * exists scanner_id. unfold goroutine_step. rewrite H0, Hg. eauto.
      * exists (receiver_id output). unfold goroutine_step. rewrite Hg. eauto.
    + specialize (Hwp _ _ H0). discriminate.
    + specialize (Hwp _ _ H0). discriminate.
  - pose proof Hlive as (Hwp & Hrecv & Hclosed & Hmap & Hchans).
    destruct (map_choose _ Hpool) as (i & g & Hi).
    assert (Hne : i <> scanner_id) by congruence.
    exists i. unfold goroutine_step. rewrite Hi.
    destruct (Hrecv i g Hne Hi) as (ch & _ & Hlt & [-> | [p ->]]); [| eauto].
    destruct (Hchans ch Hlt) as [Hc | (s & r & l & Hm)]; [| congruence].
    destruct (decide (ch ∈ closed c)); [eauto | contradiction].
Qed.

(** In no run do the goroutines of [Process] come to a stop with one of
    them left: as long as a goroutine is there, one of them can take a
    step (a step that may be the exit of the process in [InsertPair]). *)
Theorem Process_never_stuck (t : MapTask.t) (w : World) (c c' : Config) :
  MapTask_Process_go t w = Done (Spawned c) ->
  rtc (step path client) c c' ->
  pool c' <> ∅ ->
  exists i o, goroutine_step path client i c' = Some o.
Proof.
  intros Hgo Hsteps Hpool. apply live_progress; [| exact Hpool].
  eapply steps_live; [exact Hsteps |]. eapply Process_go_live. exact Hgo.
Qed.

End Progress.

Lemma Process_never_stuck_witness :
  exists i o,
    goroutine_step (H := slash_join) "tmp" word_count i one_row_spawned = Some o.
Proof.
  apply (@Process_never_stuck slash_join "tmp" word_count one_shard one_row
           one_row_spawned one_row_spawned).
  - exact one_row_go.
  - apply rtc_refl.
  - intros Hempty.
    assert (Hscan : pool one_row_spawned !! scanner_id = None)
      by (rewrite Hempty; apply lookup_empty).
    vm_compute in Hscan. discriminate.
Defined.

(** ** A run of MapTask.Process to the end *)

Lemma pool2_scanner g0 ch g1 : pool2 g0 ch g1 !! scanner_id = Some g0.
Proof.
  unfold pool2. rewrite lookup_insert_ne by (unfold receiver_id, scanner_id; lia).
  apply lookup_singleton_eq.
Qed.

Lemma pool2_receiver g0 ch g1 : pool2 g0 ch g1 !! receiver_id ch = Some g1.
Proof. unfold pool2. apply lookup_insert_eq. Qed.

Lemma pool2_set_scanner g0 g0' ch g1 :
  <[scanner_id := g0']> (pool2 g0 ch g1) = pool2 g0' ch g1.
Proof.
  unfold pool2.
  rewrite insert_insert_ne by (unfold receiver_id, scanner_id; lia).
  rewrite insert_singleton_eq. reflexivity.
Qed.

Lemma pool2_set_receiver g0 ch g1 g1' :
  <[receiver_id ch := g1']> (pool2 g0 ch g1) = pool2 g0 ch g1'.
Proof. unfold pool2. apply insert_insert_eq. Qed.

Lemma pool2_delete_receiver g0 ch g1 :
  delete (receiver_id ch) (pool2 g0 ch g1) = {[scanner_id := g0]}.
Proof.
  unfold pool2. rewrite delete_insert_eq. apply delete_id.
  apply lookup_singleton_ne. unfold receiver_id, scanner_id. lia.
Qed.

Section CompleteRun.
Context `{FilePath}.
Variable path : string.
Variable client : Interface.

Lemma insert_all_incr_M (t : MapTask.t) (pairs : list Pair) (w : World) :
  insert_all (incr_M t) path pairs w = insert_all t path pairs w.
Proof.
  revert w. induction pairs as [| p pairs IH]; intros w; [reflexivity |].
  cbn [insert_all].
  change (InsertPair (incr_M t) path p w) with (InsertPair t path p w).
  destruct (InsertPair t path p w) as [[e w'] | |]; cbn [obind];
    [apply IH | reflexivity ..].
Qed.

Lemma process_rows_incr_M (t : MapTask.t) (rows : list Pair) (w : World) :
  process_rows (incr_M t) path client rows w = process_rows t path client rows w.
Proof.
  revert w. induction rows as [| row rows IH]; intros w; [reflexivity |].
  cbn [process_rows]. rewrite insert_all_incr_M.
  destruct (insert_all t path _ _) as [w1 | |]; cbn [obind];
    [apply IH | reflexivity ..].
Qed.

(** The pairs [Map] has left to send are received and inserted one by
    one, sender and receiver taking turns. *)
Lemma send_all (sending : list Pair) (w w1 : World) (t : MapTask.t)
      (e : error) (ch : nat) (ret : error) (rows : list Pair)
      (cl : gset nat) (n : nat) :
  insert_all t path sending w = Done w1 ->
  exists e1,
    rtc (step path client)
        (mkConfig w t e (pool2 (Mapper ch sending ret rows) ch (Receiver ch))
                  cl n)
        (mkConfig w1 t e1 (pool2 (Mapper ch [] ret rows) ch (Receiver ch))
                  cl n).
Proof.
  revert w e. induction sending as [| p sending IH]; intros w e Hall.
  - cbn in Hall. injection Hall as <-. exists e. apply rtc_refl.
  - cbn [insert_all] in Hall.
    destruct (InsertPair t path p w) as [[e' w'] | |] eqn:Hins;
      cbn [obind] in Hall; try discriminate.
    pose proof (InsertPair_inv _ _ _ _ _ _ Hins) as (-> & _).
    destruct (IH w' None Hall) as [e1 Hrest]. exists e1.
    eapply rtc_l; [| eapply rtc_l; [| exact Hrest]].
    + exists scanner_id. unfold goroutine_step. cbn [pool].
      rewrite pool2_scanner, pool2_receiver.
      rewrite pool2_set_scanner, pool2_set_receiver. reflexivity.
    + exists (receiver_id ch). unfold goroutine_step. cbn [pool task world].
      rewrite pool2_receiver, Hins. cbn [obind log_error].
      rewrite pool2_set_receiver. reflexivity.
Qed.

(** One row, from the scan to the end of its receiver. *)
Lemma run_row (row : Pair) (rows : list Pair) (w w1 : World) (t : MapTask.t)
      (e : error) (cl : gset nat) (n : nat) :
  insert_all t path (Map client (Key row) (Value row)).1
             (record (call_of row) w) = Done w1 ->
  rtc (step path client)
      (mkConfig w t e {[scanner_id := Scanner (row :: rows)]} cl n)
      (mkConfig (log_error "Client.Map" (Map client (Key row) (Value row)).2 w1)
                (incr_M t) (Map client (Key row) (Value row)).2
                {[scanner_id := Scanner rows]} ({[n]} ∪ cl) (S n)).
Proof.
  intros Hall. unfold call_of in Hall.
  destruct (Map client (Key row) (Value row)) as [sending ret] eqn:Hmap.
  cbn [fst snd] in *.
  destruct (send_all sending _ w1 t None n ret rows cl (S n) Hall)
    as [e1 Hsend].
  eapply rtc_l; [| eapply rtc_trans; [exact Hsend |]].
  - exists scanner_id. unfold goroutine_step. cbn [pool].
    rewrite lookup_singleton_eq, Hmap. cbn [world task chans closed].
    rewrite insert_singleton_eq. reflexivity.
  - eapply rtc_l; [| eapply rtc_l; [| apply rtc_refl]].
    + exists scanner_id. unfold goroutine_step. cbn [pool].
      rewrite pool2_scanner. cbn [world task closed chans].
      rewrite pool2_set_scanner. reflexivity.
    + exists (receiver_id n). unfold goroutine_step. cbn [pool closed].
      rewrite pool2_receiver.
      destruct (decide (n ∈ {[n]} ∪ cl)) as [_ | Hnot];
        [| exfalso; apply Hnot; set_solver].
      rewrite pool2_delete_receiver. reflexivity.
Qed.

Lemma run_rows (rows : list Pair) (w w' : World) (t : MapTask.t)
      (e : error) (cl : gset nat) (n : nat) :
  process_rows t path client rows w = Done w' ->
  exists e' cl' n',
    rtc (step path client)
        (mkConfig w t e {[scanner_id := Scanner rows]} cl n)
        (mkConfig w' (Nat.iter (length rows) incr_M t) e' ∅ cl' n').
Proof.
  revert w t e cl n. induction rows as [| row rows IH]; intros w t e cl n Hrows.
  - cbn in Hrows. injection Hrows as <-. exists e, cl, n.
    apply rtc_once. exists scanner_id. unfold goroutine_step. cbn [pool].
    rewrite lookup_singleton_eq. cbn [world task err closed chans].
    rewrite delete_singleton_eq. reflexivity.
  - cbn [process_rows] in Hrows.
    destruct (insert_all t path _ _) as [w1 | |] eqn:Hall;
      cbn [obind] in Hrows; try discriminate.
    rewrite <- process_rows_incr_M in Hrows.
    destruct (IH _ (incr_M t) (Map client (Key row) (Value row)).2
                 ({[n]} ∪ cl) (S n) Hrows) as (e' & cl' & n' & Hrest).
    exists e', cl', n'.
    eapply rtc_trans; [apply (run_row row rows w w1 t e cl n Hall) |].
    cbn [length]. rewrite Nat.iter_succ_r. exact Hrest.
Qed.

Lemma insert_all_no_other_kind (t : MapTask.t) (pairs : list Pair)
      (w w' : World) (s : string) :
  insert_all t path pairs w = Done w' ->
  files w' !! s = Some NotADatabase -> files w !! s = Some NotADatabase.
Proof.
  revert w. induction pairs as [| p pairs IH]; intros w Hall Hs.
  - cbn in Hall. injection Hall as <-. exact Hs.
  - cbn [insert_all] in Hall.
    destruct (InsertPair t path p w) as [[e w1] | |] eqn:Hins;
      cbn [obind] in Hall; try discriminate.
    specialize (IH w1 Hall Hs).
    apply InsertPair_inv in Hins as (_ & _ & Hstore & Hother & _).
    destruct (String.eqb_spec s (store_of t path p)) as [-> | Hne].
    + rewrite Hstore in IH. discriminate.
    + rewrite <- (Hother s Hne). exact IH.
Qed.

(** Handled row by row, the pairs [Map] sends for the rows of a shard
    are sorted into the bucket stores: when [R] does not convert to zero
    and no bucket file of those pairs is a file of another kind, every
    row is handled to its end, and each store then holds what it held
    followed by the pairs of its bucket, in the order sent. *)
Lemma process_rows_partitions (t : MapTask.t) (rows : list Pair) (w : World) :
  to_uint32 (MapTask.R t) <> 0 ->
  (forall p, p ∈ emitted client rows ->
             files w !! store_of t path p <> Some NotADatabase) ->
  exists w',
    process_rows t path client rows w = Done w' /\
    forall s,
      stored w' s
      = (stored w s
         ++ List.filter (fun p => String.eqb (store_of t path p) s)
                        (emitted client rows))%list.
Proof.
  intros Hnz. revert w. unfold emitted.
  induction rows as [| row rows IH]; intros w Hfiles.
  - exists w. split; [reflexivity |]. intros s. cbn. rewrite app_nil_r.
    reflexivity.
  - cbn [map concat] in Hfiles.
    destruct (insert_all_stored t path (Map client (Key row) (Value row)).1
                (record (call_of row) w) Hnz) as (w1 & Hall & Hw1).
    { intros p Hp. apply Hfiles. apply elem_of_app. left. exact Hp. }
    assert (Hstored : forall e s,
               stored (log_error "Client.Map" e w1) s = stored w1 s)
      by (intros [e |] s; reflexivity).
    destruct (IH (log_error "Client.Map"
                            (Map client (Key row) (Value row)).2 w1))
      as (w' & Hrows & Hw').
    { intros p Hp Hkind.
      apply (Hfiles p); [apply elem_of_app; right; exact Hp |].
      apply (insert_all_no_other_kind _ _ _ _ _ Hall).
      destruct (Map client (Key row) (Value row)).2; exact Hkind. }
    exists w'. split; [cbn [process_rows]; rewrite Hall; exact Hrows |].
    intros s. rewrite Hw', Hstored, Hw1. cbn [map concat].
    rewrite List.filter_app, <- app_assoc. reflexivity.
Qed.

(** The goroutines of [Process] can run to the end, and when they do so
    row by row the shard is mapped and partitioned as it should be:
    with an [R] that does not convert to zero and no bucket file of
    another kind in the way, there is a run after which no goroutine is
    left, [Map] has been called once on every row of the input, and each
    bucket store holds what it held followed by the pairs of its bucket
    among all those [Map] sent, in the order sent. *)
Theorem Process_can_complete (t : MapTask.t) (w : World) (c : Config) :
  MapTask_Process_go t w = Done (Spawned c) ->
  to_uint32 (MapTask.R t) <> 0 ->
  let rows := stored (world c) (mapInputFile (MapTask.N t)) in
  (forall p, p ∈ emitted client rows ->
             files (world c) !! store_of t path p <> Some NotADatabase) ->
  exists c',
    rtc (step path client) c c' /\
    pool c' = ∅ /\
    calls (world c') = (calls w ++ map call_of rows)%list /\
    forall s,
      stored (world c') s
      = (stored (world c) s
         ++ List.filter (fun p => String.eqb (store_of t path p) s)
                        (emitted client rows))%list.
Proof.
  intros Hgo Hnz rows Hfiles.
  destruct (process_rows_partitions t rows (world c) Hnz Hfiles)
    as (w' & Hrows & Hw').
  assert (Hc : c = mkConfig (world c) t None {[scanner_id := Scanner rows]}
                            ∅ 0%nat).
  { subst rows. unfold MapTask_Process_go in Hgo.
    destruct (download _ _ w) as [e0 w0]. unfold openDatabase in Hgo.
    destruct (files _ !! mapInputFile (MapTask.N t)) as [[rows |] |] eqn:Hfile;
      try discriminate.
    cbn [Query_pairs obind] in Hgo. rewrite Hfile in Hgo.
    injection Hgo as <-. unfold stored. cbn [world]. rewrite Hfile.
    reflexivity. }
  destruct (run_rows rows (world c) w' t None ∅ 0%nat Hrows)
    as (e' & cl' & n' & Hrun).
  rewrite <- Hc in Hrun.
  eexists. split; [exact Hrun |]. cbn [pool world].
  split; [reflexivity |]. split; [| exact Hw'].
  destruct (steps_scans_rows path client _ _ _ _ Hrun
              (Process_go_scans_rows t w c Hgo)) as [_ Hcalls].
  unfold rows_to_scan in Hcalls. cbn [pool world] in Hcalls.
  rewrite lookup_empty in Hcalls. cbn in Hcalls.
  rewrite app_nil_r in Hcalls. exact Hcalls.
Qed.

End CompleteRun.

Lemma Process_can_complete_witness :
  exists c',
    rtc (step (H := slash_join) "tmp" word_count) one_row_spawned c' /\
    pool c' = ∅ /\
    calls (world c') = ([] ++ map call_of [mkPair "doc" "a"])%list /\
    forall s,
      stored (world c') s
      = (stored (world one_row_spawned) s
         ++ List.filter
              (fun p => String.eqb (@store_of slash_join one_shard "tmp" p) s)
              (emitted word_count [mkPair "doc" "a"]))%list.
Proof.
  apply (@Process_can_complete slash_join "tmp" word_count one_shard one_row
           one_row_spawned).
  - exact one_row_go.
  - vm_compute. discriminate.
  - intros p _. vm_compute. intros Hp.
    repeat match type of Hp with
           | context [match ?x with _ => _ end] => destruct x
           end; discriminate.
Defined.

(** ** More on ReduceTask.Process *)

(** [ReduceTask.Process] ends in one of three ways only: it returns
    [nil], having made no call to the client; it panics on an index
    outside [SourceHosts], which happens exactly when the task has fewer
    endpoints than [M]; or the merge fails and [log.Fatalf] ends the
    process.  It never returns an error. *)
Theorem ReduceTask_Process_outcomes (t : ReduceTask.t) (path : string)
        (client : Interface) (w : World) :
  match ReduceTask_Process t path client w with
  | Done (e, w') => e = None /\ calls w' = calls w /\
                    ReduceTask.M t <= Z.of_nat (length (ReduceTask.SourceHosts t))
  | Panic msg => msg = "runtime error: index out of range" /\
                 Z.of_nat (length (ReduceTask.SourceHosts t)) < ReduceTask.M t
  | Fatal msg => msg = "No, merge did not work for some reason" /\
                 ReduceTask.M t <= Z.of_nat (length (ReduceTask.SourceHosts t))
  end.
Proof.
  unfold ReduceTask_Process.
  destruct (Z_lt_le_dec (Z.of_nat (length (ReduceTask.SourceHosts t)))
                        (ReduceTask.M t)) as [Hfew | Henough].
  - pose proof (reduce_temp_loop_out_of_bounds t (Z.to_nat (ReduceTask.M t))
                  0 [] ltac:(lia) ltac:(lia)) as Hrun.
    change (Z.of_nat 0) with 0 in Hrun. rewrite Hrun. cbn [obind].
    split; [reflexivity | exact Hfew].
  - destruct (reduce_temp_loop_in_bounds t (Z.to_nat (ReduceTask.M t)) 0 []
                ltac:(lia)) as (urls & Hrun & _).
    change (Z.of_nat 0) with 0 in Hrun. rewrite Hrun. cbn [obind app].
    pose proof (mergeDatabases_calls urls (reduceInputFile (ReduceTask.N t))
                  (reduceTempFile (ReduceTask.N t)) w) as Hcalls.
    destruct (mergeDatabases urls _ _ w) as [[db [err |]] w1] eqn:Hmerge.
    + split; [reflexivity | exact Henough].
    + apply mergeDatabases_handle in Hmerge as ->. cbn.
      repeat split; [exact Hcalls | exact Henough].
Qed.

Lemma string_app_assoc (a b c : string) : (a ++ b) ++ c = a ++ (b ++ c).
Proof.
  induction a as [| x a IH]; [reflexivity |].
  change (String x ((a ++ b) ++ c) = String x (a ++ (b ++ c))).
  rewrite IH. reflexivity.
Qed.

Lemma string_forall_app (P : ascii -> bool) (a b : string) :
  string_forall P (a ++ b) = string_forall P a && string_forall P b.
Proof.
  induction a as [| x a IH]; [reflexivity |].
  change (P x && string_forall P (a ++ b)
          = P x && string_forall P a && string_forall P b).
  rewrite IH, andb_assoc. reflexivity.
Qed.

(** What follows the last [sep] in a string. *)
Lemma after_last_sep (sep : ascii) (a a' f f' : string) :
  string_forall (fun c => negb (Ascii.eqb c sep)) f = true ->
  string_forall (fun c => negb (Ascii.eqb c sep)) f' = true ->
  a ++ String sep f = a' ++ String sep f' ->
  f = f'.
Proof.
  intros Hf Hf'.
  assert (Hin : forall x y, string_forall (fun c => negb (Ascii.eqb c sep))
                                          (x ++ String sep y) = false).
  { intros x y. rewrite string_forall_app. cbn [string_forall].
    rewrite Ascii.eqb_refl. cbn. rewrite andb_false_r. reflexivity. }
  revert a'. induction a as [| c a IH]; intros [| c' a'] Heq.
  - injection Heq as Heq. exact Heq.
  - change (String sep f = String c' (a' ++ String sep f')) in Heq.
    injection Heq as _ Heq. rewrite Heq, Hin in Hf. discriminate.
  - change (String c (a ++ String sep f) = String sep f') in Heq.
    injection Heq as _ Heq. rewrite <- Heq, Hin in Hf'. discriminate.
  - change (String c (a ++ String sep f) = String c' (a' ++ String sep f'))
      in Heq.
    injection Heq as _ Heq. exact (IH a' Heq).
Qed.

Lemma mapOutputFile_no_slash (m r : Z) :
  string_forall (fun c => negb (Ascii.eqb c "/")) (mapOutputFile m r) = true.
Proof.
  unfold mapOutputFile. rewrite !string_forall_app.
  rewrite !(Itoa_free_of "/") by reflexivity. reflexivity.
Qed.

Lemma makeURL_file_inv (host host' : string) (m r m' r' : Z) :
  makeURL host (mapOutputFile m r) = makeURL host' (mapOutputFile m' r') ->
  m = m' /\ r = r'.
Proof.
  unfold makeURL. intros Heq. apply append_inv_head in Heq.
  change (host ++ ("/data" ++ String "/" (mapOutputFile m r))
          = host' ++ ("/data" ++ String "/" (mapOutputFile m' r'))) in Heq.
  rewrite <- !string_app_assoc in Heq.
  apply after_last_sep in Heq; try apply mapOutputFile_no_slash.
  apply mapOutputFile_eq_inv. exact Heq.
Qed.

(** The addresses [Process] builds for the [M] sources are pairwise
    different, whatever the hosts: no map output is fetched twice. *)
Theorem reduce_temp_files_NoDup (t : ReduceTask.t) (urls : list string) :
  reduce_temp_loop t (Z.to_nat (ReduceTask.M t)) 0 [] = Done urls ->
  NoDup urls.
Proof.
  intros Hrun.
  destruct (Z_lt_le_dec (Z.of_nat (length (ReduceTask.SourceHosts t)))
                        (ReduceTask.M t)) as [Hfew | Henough].
  - pose proof (reduce_temp_loop_out_of_bounds t (Z.to_nat (ReduceTask.M t))
                  0 [] ltac:(lia) ltac:(lia)) as Hpanic.
    change (Z.of_nat 0) with 0 in Hpanic. rewrite Hpanic in Hrun.
    discriminate.
  - destruct (reduce_temp_loop_in_bounds t (Z.to_nat (ReduceTask.M t)) 0 []
                ltac:(lia)) as (urls' & Hrun' & Hlen & Hat).
    change (Z.of_nat 0) with 0 in Hrun'. rewrite Hrun' in Hrun.
    injection Hrun as <-. cbn [app].
    apply NoDup_alt. intros i j url Hi Hj.
    pose proof (lookup_lt_Some _ _ _ Hi) as Hilt.
    pose proof (lookup_lt_Some _ _ _ Hj) as Hjlt.
    destruct (Hat i ltac:(lia)) as (h & _ & Hui).
    destruct (Hat j ltac:(lia)) as (h' & _ & Huj).
    rewrite Hi in Hui. rewrite Hj in Huj.
    assert (Heq : makeURL h (mapOutputFile (Z.of_nat (0 + i)) (ReduceTask.N t))
                  = makeURL h' (mapOutputFile (Z.of_nat (0 + j))
                                              (ReduceTask.N t)))
      by congruence.
    apply makeURL_file_inv in Heq as [Heq _]. lia.
Qed.

Lemma reduce_temp_files_NoDup_witness :
  NoDup [makeURL "h:8080" (mapOutputFile 0 0);
         makeURL "h:8080" (mapOutputFile 1 0)].
Proof.
  apply (reduce_temp_files_NoDup two_sources). vm_compute. reflexivity.
Defined.

(** ** More on main *)

Lemma build_reduceTasks_inv (m r : Z) (indices : list Z)
      (acc reduceTasks : list ReduceTask.t) :
  build_reduceTasks m r indices acc = Done reduceTasks ->
  reduceTasks
  = (acc ++ map (fun i => ReduceTask.mk m r i (replicate (Z.to_nat m) ""))
                indices)%list /\
  (indices <> [] -> 0 <= m).
Proof.
  destruct indices as [| i indices].
  - cbn. intros [= <-]. rewrite app_nil_r. split; [reflexivity | congruence].
  - intros Hbuild.
    assert (Hm : 0 <= m).
    { cbn [build_reduceTasks] in Hbuild. unfold make_strings in Hbuild.
      destruct (Z.ltb_spec m 0); [discriminate | assumption]. }
    rewrite build_reduceTasks_Done in Hbuild by (left; exact Hm).
    injection Hbuild as <-. split; [reflexivity | intros _; exact Hm].
Qed.

Lemma Process_in_bounds (t : ReduceTask.t) (path : string)
      (client : Interface) (w : World) (msg : string) :
  ReduceTask.M t <= Z.of_nat (length (ReduceTask.SourceHosts t)) ->
  ReduceTask_Process t path client w <> Panic msg.
Proof.
  intros Henough. unfold ReduceTask_Process.
  destruct (reduce_temp_loop_in_bounds t (Z.to_nat (ReduceTask.M t)) 0 []
              ltac:(lia)) as (urls & Hrun & _).
  change (Z.of_nat 0) with 0 in Hrun. rewrite Hrun. cbn [obind app].
  destruct (mergeDatabases urls _ _ w) as [[db [err |]] w1] eqn:Hmerge;
    [discriminate |].
  apply mergeDatabases_handle in Hmerge as ->. discriminate.
Qed.

(** The tasks [main] builds are well formed for what follows: the map
    tasks are numbered [0] to [M - 1] and the reduce tasks [0] to
    [R - 1], in order; every reduce task carries exactly [M] endpoints,
    so that its [Process] never runs out of [SourceHosts]. *)
Theorem main_tasks_well_formed (m r : Z) (the_address : string)
        (mapTasks : list MapTask.t) (reduceTasks : list ReduceTask.t) :
  main_tasks m r the_address = Done (mapTasks, reduceTasks) ->
  map MapTask.N mapTasks = seqZ 0 m /\
  map ReduceTask.N reduceTasks = seqZ 0 r /\
  forall t, t ∈ reduceTasks ->
    ReduceTask.M t = m /\
    Z.of_nat (length (ReduceTask.SourceHosts t)) = m /\
    forall path client w msg, ReduceTask_Process t path client w <> Panic msg.
Proof.
  unfold main_tasks. intros Hmain.
  destruct (build_reduceTasks m r (seqZ 0 r) []) as [rts | |] eqn:Hbuild;
    cbn [obind] in Hmain; try discriminate.
  injection Hmain as <- <-.
  apply build_reduceTasks_inv in Hbuild as [-> Hm]. cbn [app] in *.
  split; [unfold build_mapTasks; rewrite map_map; apply map_id |].
  split; [rewrite map_map; apply map_id |].
  intros t Ht. apply list_elem_of_fmap in Ht as (i & -> & Hi).
  assert (Hpos : 0 <= m) by (apply Hm; intros Hnil; rewrite Hnil in Hi;
                             apply elem_of_nil in Hi; exact Hi).
  cbn [ReduceTask.M ReduceTask.SourceHosts].
  assert (Hlen : Z.of_nat (length (replicate (Z.to_nat m) "")) = m)
    by (rewrite length_replicate; lia).
  split; [reflexivity |]. split; [exact Hlen |].
  intros path client w msg. apply Process_in_bounds.
  cbn [ReduceTask.M ReduceTask.SourceHosts]. rewrite Hlen. lia.
Qed.

Lemma main_tasks_well_formed_witness :
  map MapTask.N [MapTask.mk 2 1 0 "h:8080"; MapTask.mk 2 1 1 "h:8080"]
  = seqZ 0 2 /\
  map ReduceTask.N [ReduceTask.mk 2 1 0 [""; ""]] = seqZ 0 1 /\
  forall t, t ∈ [ReduceTask.mk 2 1 0 [""; ""]] ->
    ReduceTask.M t = 2 /\
    Z.of_nat (length (ReduceTask.SourceHosts t)) = 2 /\
    forall path client w msg, ReduceTask_Process t path client w <> Panic msg.
Proof.
  apply (main_tasks_well_formed 2 1 "h:8080"). reflexivity.
Defined.

(** [main] gives a run at most half as many reduce tasks as map tasks:
    with the counts it computes, twice the number of reduce tasks built
    is at most the number of map tasks built, and a source of fewer than
    two shards gets no reduce task at all. *)
Theorem main_counts_half (number_of_rows page_count m r : Z)
        (the_address : string) (mapTasks : list MapTask.t)
        (reduceTasks : list ReduceTask.t) :
  main_counts number_of_rows page_count = Done (m, r) ->
  main_tasks m r the_address = Done (mapTasks, reduceTasks) ->
  (2 * length reduceTasks <= length mapTasks)%nat /\
  (m < 2 -> reduceTasks = []).
Proof.
  unfold main_counts, main_tasks. intros Hcounts Hmain.
  destruct (page_count =? 0); [discriminate |].
  injection Hcounts as Hm Hr. rewrite Hm in Hr. clear Hm.
  destruct (build_reduceTasks m r (seqZ 0 r) []) as [rts | |] eqn:Hbuild;
    cbn [obind] in Hmain; try discriminate.
  injection Hmain as <- <-.
  apply build_reduceTasks_inv in Hbuild as [-> _]. cbn [app].
  unfold build_mapTasks. rewrite !length_map, !length_seqZ.
  assert (Hhalf : m < 0 /\ r <= 0 \/ 0 <= m /\ 0 <= r /\ 2 * r <= m).
  { destruct (Z.le_gt_cases 0 m) as [Hpos | Hneg].
    - right. subst r. split; [exact Hpos |].
      pose proof (Z.quot_pos m 2 Hpos ltac:(lia)).
      pose proof (Z.mul_quot_le m 2 Hpos ltac:(lia)). lia.
    - left. split; [lia |]. subst r. apply Z.quot_le_upper_bound; lia. }
  split; [lia |].
  intros Hlt. rewrite seqZ_nil; [reflexivity |].
  destruct Hhalf as [[_ Hr0] | (Hm0 & Hr0 & Hr2)]; lia.
Qed.

Lemma main_counts_half_witness :
  (2 * length [ReduceTask.mk 2 1 0 [""; ""]]
   <= length [MapTask.mk 2 1 0 "h:8080"; MapTask.mk 2 1 1 "h:8080"])%nat /\
  (2 < 2 -> [ReduceTask.mk 2 1 0 [""; ""]] = []).
Proof.
  apply (main_counts_half 5 2 2 1 "h:8080"); reflexivity.
Defined.

Lemma set_SourceHosts_Done (i : nat) (the_address : string)
      (reduceTasks : list ReduceTask.t) :
  Forall (fun t => (i < length (ReduceTask.SourceHosts t))%nat) reduceTasks ->
  set_SourceHosts i the_address reduceTasks
  = Done (map (fun t => ReduceTask.mk (ReduceTask.M t) (ReduceTask.R t)
                          (ReduceTask.N t)
                          (<[i := the_address]> (ReduceTask.SourceHosts t)))
              reduceTasks).
Proof.
  induction 1 as [| t reduceTasks Ht _ IH]; [reflexivity |].
  cbn [set_SourceHosts map].
  destruct (decide (i < length (ReduceTask.SourceHosts t))%nat);
    [| contradiction].
  rewrite IH. reflexivity.
Qed.

(** The map phase from round [i] on, on reduce tasks with a slot for
    every round. *)
Lemma main_map_phase_run (returned : nat -> error) (the_address : string)
      (mapTasks : list MapTask.t) (i : nat)
      (reduceTasks : list ReduceTask.t) :
  Forall (fun t => length (ReduceTask.SourceHosts t)
                   = (i + length mapTasks)%nat) reduceTasks ->
  match main_map_phase returned the_address i mapTasks reduceTasks with
  | Done filled =>
      (forall j, (j < length mapTasks)%nat -> returned (i + j)%nat = None) /\
      filled
      = map (fun t => ReduceTask.mk (ReduceTask.M t) (ReduceTask.R t)
                        (ReduceTask.N t)
                        (take i (ReduceTask.SourceHosts t)
                         ++ replicate (length mapTasks) the_address)%list)
            reduceTasks
  | Fatal msg =>
      exists j, (j < length mapTasks)%nat /\ returned (i + j)%nat <> None
  | Panic msg => False
  end.
Proof.
  revert i reduceTasks.
  induction mapTasks as [| task mapTasks IH]; intros i reduceTasks Hlen.
  - cbn [main_map_phase length]. split; [intros j Hj; lia |].
    symmetry. erewrite <- (map_id reduceTasks) at 2.
    apply Forall_fmap_ext_1. eapply Forall_impl; [exact Hlen |].
    intros [tm tr tn hosts]. cbn. intros Hhosts.
    rewrite app_nil_r, take_ge by lia. reflexivity.
  - cbn [main_map_phase length].
    destruct (returned i) as [e |] eqn:Hreturned.
    { exists 0%nat. split; [lia |]. rewrite Nat.add_0_r, Hreturned.
      discriminate. }
    rewrite set_SourceHosts_Done
      by (eapply Forall_impl; [exact Hlen |]; cbn; intros t Ht; lia).
    cbn [obind].
    specialize (IH (S i)
                   (map (fun t => ReduceTask.mk (ReduceTask.M t)
                                    (ReduceTask.R t) (ReduceTask.N t)
                                    (<[i := the_address]>
                                       (ReduceTask.SourceHosts t)))
                        reduceTasks)).
    destruct (main_map_phase returned the_address (S i) mapTasks _)
      as [filled | msg | msg].
    + destruct IH as [Hnone ->].
      { apply Forall_fmap. eapply Forall_impl; [exact Hlen |].
        cbn. intros t Ht. rewrite length_insert. lia. }
      split.
      * intros [| j] Hj; [rewrite Nat.add_0_r; exact Hreturned |].
        replace (i + S j)%nat with (S i + j)%nat by lia.
        apply Hnone. lia.
      * rewrite map_map. apply Forall_fmap_ext_1.
        eapply Forall_impl; [exact Hlen |].
        intros [tm tr tn hosts]. cbn. intros Hhosts. f_equal.
        rewrite (take_S_r _ _ the_address)
          by (apply list_lookup_insert_eq; lia).
        rewrite take_insert_ge by lia.
        rewrite <- app_assoc. reflexivity.
    + apply IH. apply Forall_fmap. eapply Forall_impl; [exact Hlen |].
      cbn. intros t Ht. rewrite length_insert. lia.
    + destruct IH as (j & Hj & Herr).
      { apply Forall_fmap. eapply Forall_impl; [exact Hlen |].
        cbn. intros t Ht. rewrite length_insert. lia. }
      exists (S j). split; [lia |].
      replace (i + S j)%nat with (S i + j)%nat by lia. exact Herr.
Qed.

Lemma main_tasks_inv (m r : Z) (the_address : string)
      (mapTasks : list MapTask.t) (reduceTasks : list ReduceTask.t) :
  main_tasks m r the_address = Done (mapTasks, reduceTasks) ->
  mapTasks = build_mapTasks m r the_address /\
  length mapTasks = Z.to_nat m /\
  reduceTasks
  = map (fun n => ReduceTask.mk m r n (replicate (Z.to_nat m) "")) (seqZ 0 r).
Proof.
  unfold main_tasks. intros Hmain.
  destruct (build_reduceTasks m r (seqZ 0 r) []) as [rts | |] eqn:Hbuild;
    cbn [obind] in Hmain; try discriminate.
  injection Hmain as <- <-.
  apply build_reduceTasks_inv in Hbuild as [-> _].
  split; [reflexivity |]. split; [| reflexivity].
  unfold build_mapTasks. rewrite length_map, length_seqZ. reflexivity.
Qed.

(** The map phase of [main] on the tasks [main] builds never indexes
    [SourceHosts] out of range.  It ends in [log.Fatalf] exactly when
    some call of [Process] returns an error; otherwise it leaves every
    reduce task with all its [M] endpoints set to the one address
    [main] listens on, and nothing else changed. *)
Theorem main_map_phase_fills (returned : nat -> error) (m r : Z)
        (the_address : string) (mapTasks : list MapTask.t)
        (reduceTasks : list ReduceTask.t) :
  main_tasks m r the_address = Done (mapTasks, reduceTasks) ->
  match main_map_phase returned the_address 0 mapTasks reduceTasks with
  | Done filled =>
      (forall i, (i < length mapTasks)%nat -> returned i = None) /\
      filled
      = map (fun n => ReduceTask.mk m r n
                        (replicate (Z.to_nat m) the_address))
            (seqZ 0 r)
  | Fatal msg => exists i, (i < length mapTasks)%nat /\ returned i <> None
  | Panic msg => False
  end.
Proof.
  intros Hmain. apply main_tasks_inv in Hmain as (_ & Hlen & ->).
  pose proof (main_map_phase_run returned the_address mapTasks 0
                (map (fun n => ReduceTask.mk m r n
                                 (replicate (Z.to_nat m) ""))
                     (seqZ 0 r))) as Hrun.
  destruct (main_map_phase returned the_address 0 mapTasks _)
    as [filled | msg | msg].
  - destruct Hrun as [Hnone ->].
    { apply Forall_fmap, Forall_forall. intros n _. cbn.
      rewrite length_replicate. lia. }
    split; [exact Hnone |].
    rewrite map_map. cbn. rewrite Hlen. reflexivity.
  - apply Hrun. apply Forall_fmap, Forall_forall. intros n _. cbn.
    rewrite length_replicate. lia.
  - apply Hrun. apply Forall_fmap, Forall_forall. intros n _. cbn.
    rewrite length_replicate. lia.
Qed.

Lemma main_map_phase_fills_witness :
  (forall i, (i < length [MapTask.mk 2 1 0 "h:8080";
                          MapTask.mk 2 1 1 "h:8080"])%nat ->
             (fun _ : nat => @None goerror) i = None) /\
  [ReduceTask.mk 2 1 0 ["h:8080"; "h:8080"]]
  = map (fun n => ReduceTask.mk 2 1 n (replicate (Z.to_nat 2) "h:8080"))
        (seqZ 0 1).
Proof.
  exact (main_map_phase_fills (fun _ => None) 2 1 "h:8080" _ _ eq_refl).
Defined.

(** After the map phase of [main], every reduce task asks the address
    [main] listens on for each of the [M] map outputs of its own
    number, in the order of the map tasks. *)
Theorem main_reduce_sources (returned : nat -> error) (m r : Z)
        (the_address : string) (mapTasks : list MapTask.t)
        (reduceTasks filled : list ReduceTask.t) (t : ReduceTask.t) :
  main_tasks m r the_address = Done (mapTasks, reduceTasks) ->
  main_map_phase returned the_address 0 mapTasks reduceTasks = Done filled ->
  t ∈ filled ->
  reduce_temp_loop t (Z.to_nat (ReduceTask.M t)) 0 []
  = Done (map (fun i => makeURL the_address
                          (mapOutputFile i (ReduceTask.N t)))
              (seqZ 0 m)).
Proof.
  intros Hmain Hphase Ht.
  apply main_tasks_inv in Hmain as (_ & Hlen & ->).
  pose proof (main_map_phase_run returned the_address mapTasks 0
                (map (fun n => ReduceTask.mk m r n
                                 (replicate (Z.to_nat m) ""))
                     (seqZ 0 r))) as Hrun.
  rewrite Hphase in Hrun. destruct Hrun as [_ ->].
  { apply Forall_fmap, Forall_forall. intros n _. cbn.
    rewrite length_replicate. lia. }
  rewrite map_map in Ht. apply list_elem_of_fmap in Ht as (n & -> & _).
  cbn [ReduceTask.M ReduceTask.N ReduceTask.R ReduceTask.SourceHosts].
  rewrite take_0, Hlen. cbn [app].
  destruct (reduce_temp_loop_in_bounds
              (ReduceTask.mk m r n (replicate (Z.to_nat m) the_address))
              (Z.to_nat m) 0 [])
    as (urls & Hloop & Hurls & Hat).
  { cbn. rewrite length_replicate. lia. }
  change (Z.of_nat 0) with 0 in Hloop. rewrite Hloop. cbn [app]. f_equal.
  apply list_eq. intros j. rewrite list_lookup_fmap.
  destruct (decide (j < Z.to_nat m)%nat) as [Hj | Hj].
  - destruct (Hat j Hj) as (host & Hhost & ->).
    cbn in Hhost. apply lookup_replicate in Hhost as [-> _].
    rewrite lookup_seqZ_lt by lia. cbn. reflexivity.
  - rewrite lookup_seqZ_ge by lia.
    apply lookup_ge_None. lia.
Qed.

Lemma main_reduce_sources_witness :
  reduce_temp_loop (ReduceTask.mk 2 1 0 ["h:8080"; "h:8080"])
                   (Z.to_nat 2) 0 []
  = Done (map (fun i => makeURL "h:8080" (mapOutputFile i 0)) (seqZ 0 2)).
Proof.
  apply (main_reduce_sources (fun _ => None) 2 1 "h:8080"
           [MapTask.mk 2 1 0 "h:8080"; MapTask.mk 2 1 1 "h:8080"]
           [ReduceTask.mk 2 1 0 [""; ""]]
           [ReduceTask.mk 2 1 0 ["h:8080"; "h:8080"]]).
  - reflexivity.
  - reflexivity.
  - apply list_elem_of_here.
Defined.
